(** * The 2048 expectimax player: board model, heuristics and search

    A shallow embedding of [2048-ai.py].  Boards are Python lists of lists of
    unbounded integers; they are modelled as [list (list Z)].  The
    transposition table is a Python dict and is modelled as a [gmap]. *)

From Stdlib Require Import ZArith List Lia Bool Reals Lra Floats Uint63.
From stdpp Require Import base list gmap.
Import ListNotations.

Local Open Scope Z_scope.

(** ** Data model *)

Abbreviation row := (list Z).
Abbreviation grid := (list (list Z)).

(** The four direction strings ['up'], ['down'], ['left'], ['right']. *)
Inductive direction := Up | Down | Left | Right.

#[global] Instance direction_eq_dec : EqDecision direction.
Proof. solve_decision. Defined.

(** The boards the program plays on: four rows of four cells. *)
Definition wf_board (g : grid) : Prop :=
  length g = 4%nat ∧ Forall (λ r : row, length r = 4%nat) g.

(** [grid[x][y]]; the program only indexes inside the 4x4 board. *)
Definition cell (g : grid) (x y : nat) : Z := nth y (nth x g []) 0.

(** ** merge_left *)

(** One iteration of the body of the [while] loop of [merge_left]:
    [if new_row[i] == new_row[i + 1]: new_row[i] *= 2; del new_row[i + 1];
     new_row.append(0)]. *)
Definition merge_body (i : nat) (new_row : row) : row :=
  if nth i new_row 0 =? nth (S i) new_row 0
  then delete (S i) (<[i := nth i new_row 0 * 2]> new_row) ++ [0]
  else new_row.

(** [while i < len(new_row) - 1: ...; i += 1].  The loop is run with an
    explicit bound on the number of iterations; [merge_while_exits] shows
    that the bound used by [merge_row] is never the reason for stopping. *)
Fixpoint merge_while (fuel : nat) (i : nat) (new_row : row) : row :=
  match fuel with
  | O => new_row
  | S fuel' =>
      if Z.of_nat i <? Z.of_nat (length new_row) - 1
      then merge_while fuel' (S i) (merge_body i new_row)
      else new_row
  end.

(** The runs of the same loop as a relation: [merge_loop i r r'] when the
    loop entered with index [i] and row [r] leaves through its guard with
    [r']. *)
Inductive merge_loop : nat → row → row → Prop :=
  | merge_loop_exit i new_row :
      ¬ (Z.of_nat i < Z.of_nat (length new_row) - 1) →
      merge_loop i new_row new_row
  | merge_loop_iter i new_row final :
      Z.of_nat i < Z.of_nat (length new_row) - 1 →
      merge_loop (S i) (merge_body i new_row) final →
      merge_loop i new_row final.

(** The body of [for row in grid] in [merge_left]. *)
Definition merge_row (r : row) : row :=
  let new_row := filter (λ tile, tile ≠ 0) r in
  let new_row := merge_while (length new_row) 0 new_row in
  new_row ++ replicate (Z.to_nat (4 - Z.of_nat (length new_row))) 0.

Definition merge_left (g : grid) : grid := map merge_row g.

(** ** reverse and rotate *)

(** [[row[::-1] for row in grid]] *)
Definition reverse (g : grid) : grid := map (@rev Z) g.

(** Python's [zip] applied to the unpacked rows: the tuples of i-th
    elements, as many as the shortest row has; nothing when there are no
    rows. *)
Fixpoint zip_star_aux (n : nat) (rows : list row) : list row :=
  match n with
  | O => []
  | S n' =>
      match mapM head rows with
      | Some heads => heads :: zip_star_aux n' (map tail rows)
      | None => []
      end
  end.

Definition zip_star (rows : list row) : list row :=
  match rows with
  | [] => []
  | r :: _ => zip_star_aux (length r) rows
  end.

(** [[list(row) for row in zip( *grid[::-1])]]: the rows in reverse order,
    then the columns of that. *)
Definition rotate_once (g : grid) : grid := zip_star (rev g).

(** [rotate(grid, times)]: [times % 4] quarter turns. *)
Definition rotate (g : grid) (times : Z) : grid :=
  Nat.iter (Z.to_nat (times mod 4)) rotate_once g.

(** ** move *)

Definition move (g : grid) (d : direction) : grid :=
  match d with
  | Up =>
      let grid_rotated := rotate g 1 in
      let merged_grid := merge_left grid_rotated in
      rotate merged_grid (-1)
  | Down =>
      let grid_rotated := rotate g (-1) in
      let merged_grid := merge_left grid_rotated in
      rotate merged_grid 1
  | Left => merge_left g
  | Right =>
      let grid_reversed := reverse g in
      let merged_grid := merge_left grid_reversed in
      reverse merged_grid
  end.

(** ** game_over and get_possible_moves *)

(** The index pairs visited by [for x in range(4): for y in range(4)]. *)
Definition range4 : list nat := [0; 1; 2; 3]%nat.
Definition cells4 : list (nat * nat) :=
  x ← range4; y ← range4; [(x, y)].

Definition game_over (g : grid) : bool :=
  if existsb (λ r, existsb (Z.eqb 0) r) g then false
  else
    forallb (λ '(x, y),
        negb (((x + 1 <? 4)%nat && (cell g x y =? cell g (x + 1) y))
              || ((y + 1 <? 4)%nat && (cell g x y =? cell g x (y + 1)))))
      cells4.

Definition get_possible_moves (g : grid) : list (direction * grid) :=
  foldl (λ moves d,
      let new_grid := move g d in
      if bool_decide (new_grid ≠ g) then moves ++ [(d, new_grid)] else moves)
    [] [Up; Down; Left; Right].

(** ** add_random_tile and initialize_game *)

(** [[(r, c) for r in range(4) for c in range(4) if grid[r][c] == 0]] *)
Definition empty_cells (g : grid) : list (nat * nat) :=
  filter (λ '(r, c), cell g r c = 0) cells4.

(** [grid[r][c] = value] *)
Definition set_cell (g : grid) (r c : nat) (value : Z) : grid :=
  <[r := <[c := value]> (nth r g [])]> g.

(** [add_random_tile]: the outcome of [random.choice] is given as the
    position [pick] in [empty_cells], that of [random.random() < 0.9] as the
    boolean [two]. *)
Definition add_random_tile (g : grid) (pick : nat) (two : bool) : grid :=
  match empty_cells g with
  | [] => g
  | e :: es =>
      let '(r, c) := nth pick (e :: es) e in
      set_cell g r c (if two then 2 else 4)
  end.

Definition initialize_game (pick1 : nat) (two1 : bool)
    (pick2 : nat) (two2 : bool) : grid :=
  let g := replicate 4 (replicate 4 0) in
  let g := add_random_tile g pick1 two1 in
  add_random_tile g pick2 two2.

(** ** Heuristics

    The scores are Python floats.  The arithmetic the program uses on them is
    collected in an interface, so that every definition below reads as the
    source does and every theorem holds for whatever the float operations
    compute.  A Python [int] that flows into float arithmetic is converted
    where it is created ([of_int]). *)

Class FloatOps (F : Type) := {
  fadd : F → F → F;
  fsub : F → F → F;
  fmul : F → F → F;
  fdiv : F → F → F;
  fabs : F → F;
  (** [a > b] *)
  fgt : F → F → bool;
  (** the float of a Python [int] *)
  of_int : Z → F;
  (** [math.log2], called by the program on non-zero cells only *)
  log2 : Z → F;
  (** [-float('inf')] *)
  neg_inf : F;
  (** the decimal literal [m * 10^(-e)]: [fdec 27 1] is [2.7] *)
  fdec : Z → nat → F
}.

(** Python's [max] on a non-empty list of integers (the rows of a board and
    the list of their maxima are never empty). *)
Definition max_list_Z (l : list Z) : Z :=
  match l with
  | [] => 0
  | x :: l' => foldl Z.max x l'
  end.

(** [row.count(0)] *)
Definition count0 (r : row) : Z := Z.of_nat (length (filter (λ v, v = 0) r)).

(** [sum(row.count(0) for row in grid)] *)
Definition empty_tile_heuristic (g : grid) : Z :=
  foldl Z.add 0 (map count0 g).

Section heuristics.
Context {F : Type} `{FloatOps F}.

(** Python's two-argument [max(a, b)]: [b] when [b > a], else [a]. *)
Definition fmax (a b : F) : F := if fgt b a then b else a.

(** The [while 0 <= nx < 4 and 0 <= ny < 4] loop of
    [smoothness_heuristic]; [nx] or [ny] grows at each iteration, so the
    four iterations granted are never exceeded ([smooth_scan_4]). *)
Fixpoint smooth_scan (fuel : nat) (g : grid) (nx ny dx dy : nat)
    (value smoothness : F) : F :=
  match fuel with
  | O => smoothness
  | S fuel' =>
      if (nx <? 4)%nat && (ny <? 4)%nat then
        if bool_decide (cell g nx ny ≠ 0) then
          let target_value := log2 (cell g nx ny) in
          fsub smoothness (fabs (fsub value target_value))
        else smooth_scan fuel' g (nx + dx) (ny + dy) dx dy value smoothness
      else smoothness
  end.

Definition smoothness_heuristic (g : grid) : F :=
  foldl (λ smoothness '(x, y),
      if bool_decide (cell g x y ≠ 0) then
        let value := log2 (cell g x y) in
        foldl (λ smoothness '(dx, dy),
            smooth_scan 4 g (x + dx) (y + dy) dx dy value smoothness)
          smoothness [(1, 0); (0, 1)]%nat
      else smoothness)
    (of_int 0) cells4.

(** [math.log2(v) if v else 0] *)
Definition log2_or_0 (v : Z) : F :=
  if bool_decide (v ≠ 0) then log2 v else of_int 0.

(** The [for i in range(3)] loop over one line, adding to the entries
    [lo] and [hi] of [totals]. *)
Definition mono_line (line : row) (lo hi : nat) (totals : list F) : list F :=
  foldl (λ totals i,
      let current := log2_or_0 (nth i line 0) in
      let next := log2_or_0 (nth (i + 1) line 0) in
      if fgt current next then
        <[lo := fadd (nth lo totals (of_int 0)) (fsub next current)]> totals
      else if fgt next current then
        <[hi := fadd (nth hi totals (of_int 0)) (fsub current next)]> totals
      else totals)
    totals [0; 1; 2]%nat.

Definition monotonicity_heuristic (g : grid) : F :=
  let totals := replicate 4 (of_int 0) in
  let totals :=
    foldl (λ totals x, mono_line (nth x g []) 0 1 totals) totals range4 in
  let totals :=
    foldl (λ totals y,
        mono_line (map (λ x, cell g x y) range4) 2 3 totals)
      totals range4 in
  fadd (fmax (nth 0 totals (of_int 0)) (nth 1 totals (of_int 0)))
       (fmax (nth 2 totals (of_int 0)) (nth 3 totals (of_int 0))).

Definition max_tile_heuristic (g : grid) : F :=
  if bool_decide (max_list_Z (map max_list_Z g) ≠ 0)
  then log2 (max_list_Z (map max_list_Z g))
  else of_int 0.

Definition combined_heuristic (g : grid) : F :=
  let empty_weight := fdec 27 1 in
  let max_tile_weight := fdec 10 1 in
  let smoothness_weight := fdec 1 1 in
  let monotonicity_weight := fdec 10 1 in
  fadd (fadd (fadd (fmul empty_weight (of_int (empty_tile_heuristic g)))
                   (fmul max_tile_weight (max_tile_heuristic g)))
             (fmul smoothness_weight (smoothness_heuristic g)))
       (fmul monotonicity_weight (monotonicity_heuristic g)).
End heuristics.

(** ** expectimax *)

(** The keys [(grid_tuple, depth, player_turn)] of [transposition_table]:
    the tuple of tuples is the content of the board. *)
Abbreviation key := (list (list Z) * Z * bool)%type.

(** What [expectimax] returns: [(score, direction or None)]. *)
Abbreviation result F := (F * option direction)%type.

Section search.
Context {F : Type} `{FloatOps F}.

Abbreviation table := (gmap key (result F)).

Definition tile_values : list Z := [2; 4].
Definition probabilities : list F := [fdec 9 1; fdec 1 1].

(** *** With the transposition table

    The table is a module-level dict: it is threaded through every call.
    [rec] stands for the recursive call at [depth + 1]. *)

(** [for direction, new_grid in get_possible_moves(grid)] *)
Fixpoint max_loop (rec : grid → table → option (result F * table))
    (moves : list (direction * grid)) (max_score : F)
    (best_direction : option direction) (tt : table)
    : option (F * option direction * table) :=
  match moves with
  | [] => Some (max_score, best_direction, tt)
  | (d, new_grid) :: moves' =>
      '(score, _, tt) ← rec new_grid tt;
      if fgt score max_score
      then max_loop rec moves' score (Some d) tt
      else max_loop rec moves' max_score best_direction tt
  end.

(** [for value, probability in zip(tile_values, probabilities)] *)
Fixpoint spawn_loop (rec : grid → table → option (result F * table))
    (g : grid) (r c : nat) (total_tiles : Z) (outcomes : list (Z * F))
    (score : F) (tt : table) : option (F * table) :=
  match outcomes with
  | [] => Some (score, tt)
  | (value, probability) :: outcomes' =>
      let grid_new := set_cell g r c value in
      '(tile_score, _, tt) ← rec grid_new tt;
      spawn_loop rec g r c total_tiles outcomes'
        (fadd score (fmul (fdiv probability (of_int total_tiles)) tile_score))
        tt
  end.

(** [for cell in empty_cells] *)
Fixpoint chance_loop (rec : grid → table → option (result F * table))
    (g : grid) (total_tiles : Z) (cells : list (nat * nat))
    (score : F) (tt : table) : option (F * table) :=
  match cells with
  | [] => Some (score, tt)
  | (r, c) :: cells' =>
      '(score, tt) ← spawn_loop rec g r c total_tiles
                       (zip tile_values probabilities) score tt;
      chance_loop rec g total_tiles cells' score tt
  end.

(** [expectimax(grid, depth, player_turn, max_depth)].  [fuel] bounds the
    nesting of recursive calls; [None] means the bound was reached. *)
Fixpoint expectimax (fuel : nat) (g : grid) (depth : Z) (player_turn : bool)
    (max_depth : Z) (tt : table) : option (result F * table) :=
  match fuel with
  | O => None
  | S fuel' =>
      let k : key := (g, depth, player_turn) in
      match tt !! k with
      | Some cached => Some (cached, tt)
      | None =>
          if (depth =? max_depth) || game_over g then
            let score := combined_heuristic g in
            Some ((score, None), <[k := (score, None)]> tt)
          else if player_turn then
            '(max_score, best_direction, tt) ←
              max_loop (λ new_grid tt,
                  expectimax fuel' new_grid (depth + 1) false max_depth tt)
                (get_possible_moves g) neg_inf None tt;
            Some ((max_score, best_direction),
                  <[k := (max_score, best_direction)]> tt)
          else
            let empty := empty_cells g in
            if bool_decide (empty = []) then
              let score := combined_heuristic g in
              Some ((score, None), <[k := (score, None)]> tt)
            else
              let total_tiles := Z.of_nat (length empty) in
              '(score, tt) ←
                chance_loop (λ grid_new tt,
                    expectimax fuel' grid_new (depth + 1) true max_depth tt)
                  g total_tiles empty (of_int 0) tt;
              Some ((score, None), <[k := (score, None)]> tt)
      end
  end.

(** *** The same recursion with the table lookup and store removed *)

Fixpoint max_loop_nomemo (rec : grid → option (result F))
    (moves : list (direction * grid)) (max_score : F)
    (best_direction : option direction) : option (result F) :=
  match moves with
  | [] => Some (max_score, best_direction)
  | (d, new_grid) :: moves' =>
      '(score, _) ← rec new_grid;
      if fgt score max_score
      then max_loop_nomemo rec moves' score (Some d)
      else max_loop_nomemo rec moves' max_score best_direction
  end.

Fixpoint spawn_loop_nomemo (rec : grid → option (result F))
    (g : grid) (r c : nat) (total_tiles : Z) (outcomes : list (Z * F))
    (score : F) : option F :=
  match outcomes with
  | [] => Some score
  | (value, probability) :: outcomes' =>
      let grid_new := set_cell g r c value in
      '(tile_score, _) ← rec grid_new;
      spawn_loop_nomemo rec g r c total_tiles outcomes'
        (fadd score (fmul (fdiv probability (of_int total_tiles)) tile_score))
  end.

Fixpoint chance_loop_nomemo (rec : grid → option (result F))
    (g : grid) (total_tiles : Z) (cells : list (nat * nat))
    (score : F) : option F :=
  match cells with
  | [] => Some score
  | (r, c) :: cells' =>
      score ← spawn_loop_nomemo rec g r c total_tiles
                (zip tile_values probabilities) score;
      chance_loop_nomemo rec g total_tiles cells' score
  end.

Fixpoint expectimax_nomemo (fuel : nat) (g : grid) (depth : Z)
    (player_turn : bool) (max_depth : Z) : option (result F) :=
  match fuel with
  | O => None
  | S fuel' =>
      if (depth =? max_depth) || game_over g then
        Some (combined_heuristic g, None)
      else if player_turn then
        max_loop_nomemo (λ new_grid,
            expectimax_nomemo fuel' new_grid (depth + 1) false max_depth)
          (get_possible_moves g) neg_inf None
      else
        let empty := empty_cells g in
        if bool_decide (empty = []) then Some (combined_heuristic g, None)
        else
          let total_tiles := Z.of_nat (length empty) in
          score ←
            chance_loop_nomemo (λ grid_new,
                expectimax_nomemo fuel' grid_new (depth + 1) true max_depth)
              g total_tiles empty (of_int 0);
          Some (score, None)
  end.
End search.

(** ** Reference definitions, written from the specification *)

(** Compaction: the non-zero tiles of a row, in their order. *)
Definition compact (r : row) : list Z := filter (λ tile, tile ≠ 0) r.

(** One left-to-right pass over compacted tiles: two equal neighbours become
    one tile of double the value, and the scan resumes after the pair, so the
    new tile takes part in no further merge. *)
Fixpoint merge_pass (tiles : list Z) : list Z :=
  match tiles with
  | x :: (y :: rest) as tl =>
      if x =? y then 2 * x :: merge_pass rest else x :: merge_pass tl
  | _ => tiles
  end.

(** The relation between the compacted tiles and the tiles after a pass in
    which every tile takes part in at most one merge: the input is cut into
    single tiles, which are kept, and pairs of equal neighbours, which become
    one tile of double the value. *)
Inductive merged_once : list Z → list Z → Prop :=
  | merged_once_nil : merged_once [] []
  | merged_once_keep x tiles out :
      merged_once tiles out → merged_once (x :: tiles) (x :: out)
  | merged_once_pair x tiles out :
      merged_once tiles out → merged_once (x :: x :: tiles) (2 * x :: out).

(** Padding back to length 4 with trailing zeros. *)
Definition pad4 (tiles : list Z) : row :=
  tiles ++ replicate (4 - length tiles) 0.

Definition merge_row_ref (r : row) : row := pad4 (merge_pass (compact r)).

(** The columns of a board, each read top to bottom. *)
Definition columns (g : grid) : grid :=
  map (λ y, map (λ x, cell g x y) range4) range4.

(** Reorientation that brings the edge of direction [d] to the left. *)
Definition reorient (d : direction) (g : grid) : grid :=
  match d with
  | Left => g
  | Right => map (@rev Z) g
  | Up => columns g
  | Down => map (@rev Z) (columns g)
  end.

(** Its inverse. *)
Definition unorient (d : direction) (g : grid) : grid :=
  match d with
  | Left => g
  | Right => map (@rev Z) g
  | Up => columns g
  | Down => columns (map (@rev Z) g)
  end.

(** The reference implementation of a move in direction [d]. *)
Definition move_ref (g : grid) (d : direction) : grid :=
  unorient d (merge_left (reorient d g)).

(** A cell value allowed on a board: zero, or a power of two at least 2. *)
Definition is_tile (v : Z) : Prop := v = 0 ∨ ∃ k : Z, 1 ≤ k ∧ v = 2 ^ k.

Definition tiles_only (g : grid) : Prop := Forall (Forall is_tile) g.

(** The sum of the values of a row, and of all cell values. *)
Definition row_sum (r : list Z) : Z := foldr Z.add 0 r.
Definition grid_sum (g : grid) : Z := foldr Z.add 0 (concat g).

(** The number of zero cells and the largest cell value. *)
Definition zero_cells (g : grid) : Z :=
  Z.of_nat (length (filter (λ v, v = 0) (concat g))).
Definition largest_tile (g : grid) : Z := foldr Z.max 0 (concat g).

(** A line of four cells that neither a merge towards its first cell nor
    one towards its last cell changes. *)
Definition stuck (a b c d : Z) : Prop :=
  merge_row [a; b; c; d] = [a; b; c; d]
  ∧ rev (merge_row [d; c; b; a]) = [a; b; c; d].

(** Some cell of the board is not empty. *)
Definition has_nonzero (g : grid) : bool :=
  existsb (λ r, existsb (λ v, negb (v =? 0)) r) g.

(** ** The empty cells and the spawned boards, as the specification
    words them *)

(** The positions of the zero cells of a board, read row by row and, in a
    row, from left to right. *)
Fixpoint zeros_in_row (r c : nat) (line : row) : list (nat * nat) :=
  match line with
  | [] => []
  | v :: rest =>
      if decide (v = 0) then (r, c) :: zeros_in_row r (S c) rest
      else zeros_in_row r (S c) rest
  end.

Fixpoint zeros_from (r : nat) (g : grid) : list (nat * nat) :=
  match g with
  | [] => []
  | line :: g' => zeros_in_row r 0 line ++ zeros_from (S r) g'
  end.

Definition zero_positions (g : grid) : list (nat * nat) := zeros_from 0 g.

(** The board that holds [v] in row [r], column [c], and is [g] in every
    other cell. *)
Definition with_tile (g : grid) (r c : nat) (v : Z) : grid :=
  imap (λ i line,
      imap (λ j x, if decide (i = r ∧ j = c) then v else x) line) g.

(** ** The search, as the specification words it *)

Section search_reference.
Context {F : Type} `{FloatOps F}.

(** The score of a node: what the recursion without table returns for it. *)
Definition node_value (fuel : nat) (g : grid) (depth : Z) (player_turn : bool)
    (max_depth : Z) : F :=
  match expectimax_nomemo fuel g depth player_turn max_depth with
  | Some (score, _) => score
  | None => of_int 0
  end.

(** The value of a chance node from the values of its children: the heuristic
    score when no cell is empty, else the sum over the empty cells of
    [1/|cells|] times ([0.9] times the child with a 2 plus [0.1] times the
    child with a 4). *)
Definition chance_value (child : grid → F) (g : grid) : F :=
  let cells := zero_positions g in
  if bool_decide (cells = []) then combined_heuristic g
  else
    foldl (λ sum '(r, c),
        fadd sum
          (fmul (fdiv (of_int 1) (of_int (Z.of_nat (length cells))))
             (fadd (fmul (fdec 9 1) (child (with_tile g r c 2)))
                   (fmul (fdec 1 1) (child (with_tile g r c 4))))))
      (of_int 0) cells.

(** The same value in the order in which the program accumulates it: the
    two outcomes of each cell are added to the running sum one after the
    other, each weighted by its probability divided by the number of cells. *)
Definition chance_value_computed (child : grid → F) (g : grid) : F :=
  let cells := zero_positions g in
  if bool_decide (cells = []) then combined_heuristic g
  else
    foldl (λ sum '(r, c),
        fadd
          (fadd sum
             (fmul (fdiv (fdec 9 1) (of_int (Z.of_nat (length cells))))
                (child (with_tile g r c 2))))
          (fmul (fdiv (fdec 1 1) (of_int (Z.of_nat (length cells))))
             (child (with_tile g r c 4))))
      (of_int 0) cells.

(** The laws of exact arithmetic under which the two ways of writing the
    weighted sum agree (floating-point rounding does not obey them). *)
Definition exact_arithmetic : Prop :=
  (∀ a b c : F, fadd (fadd a b) c = fadd a (fadd b c))
  ∧ (∀ a b c : F, fmul a (fadd b c) = fadd (fmul a b) (fmul a c))
  ∧ (∀ p n c : F, fmul (fdiv p n) c = fmul (fdiv (of_int 1) n) (fmul p c)).

(** Every entry of a table is what the recursion without table computes for
    the key it is stored under. *)
Definition table_sound (max_depth : Z) (tt : gmap key (result F)) : Prop :=
  ∀ (g : grid) (depth : Z) (player_turn : bool) (r : result F),
    tt !! (g, depth, player_turn) = Some r →
    depth ≤ max_depth
    ∧ ∀ fuel : nat,
        max_depth - depth < Z.of_nat fuel →
        expectimax_nomemo fuel g depth player_turn max_depth = Some r.

(** What a recursive call has to satisfy for the loops around it to agree
    with the loops of the recursion without table. *)
Definition rec_agrees (max_depth : Z)
    (rec : grid → gmap key (result F) → option (result F * gmap key (result F)))
    (rec_nomemo : grid → option (result F)) : Prop :=
  ∀ g tt, table_sound max_depth tt →
    ∃ r tt', rec g tt = Some (r, tt') ∧ rec_nomemo g = Some r
             ∧ table_sound max_depth tt'.

(** The combined score as the specification words it. *)
Definition combined_score (g : grid) : F :=
  fadd (fadd (fadd (fmul (fdec 27 1) (of_int (zero_cells g)))
                   (fmul (fdec 10 1)
                      (if bool_decide (Forall (Forall (λ v, v = 0)) g)
                       then of_int 0 else log2 (largest_tile g))))
             (fmul (fdec 1 1) (smoothness_heuristic g)))
       (fmul (fdec 10 1) (monotonicity_heuristic g)).
End search_reference.

(** ** A model of the score arithmetic

    Exact real arithmetic, with a least element for [-float('inf')] that
    every operation propagates. *)

Inductive xreal := NegInf | Fin (r : R).

Definition xreal_lift (f : R → R → R) (a b : xreal) : xreal :=
  match a, b with
  | Fin x, Fin y => Fin (f x y)
  | _, _ => NegInf
  end.

Definition xreal_abs (a : xreal) : xreal :=
  match a with
  | Fin x => Fin (Rabs x)
  | NegInf => NegInf
  end.

Definition xreal_gt (a b : xreal) : bool :=
  match a, b with
  | Fin x, Fin y => if Rgt_dec x y then true else false
  | Fin _, NegInf => true
  | NegInf, _ => false
  end.

#[global] Instance xreal_ops : FloatOps xreal := {|
  fadd := xreal_lift Rplus;
  fsub := xreal_lift Rminus;
  fmul := xreal_lift Rmult;
  fdiv := xreal_lift Rdiv;
  fabs := xreal_abs;
  fgt := xreal_gt;
  of_int z := Fin (IZR z);
  log2 z := Fin (ln (IZR z) / ln 2);
  neg_inf := NegInf;
  fdec m e := Fin (IZR m / 10 ^ e)
|}.

(** ** Definitions for the further properties *)

(** Binary64 floats as a second model of the score arithmetic, one that
    evaluates.  The conversion of an integer is exact below [2^53] in
    absolute value; [math.log2] is taken on powers of two, where it is exact
    and is the position of the single set bit. *)
Definition float_of_int (z : Z) : float :=
  if z <? 0 then PrimFloat.opp (PrimFloat.of_uint63 (Uint63.of_Z (- z)))
  else PrimFloat.of_uint63 (Uint63.of_Z z).

#[global] Instance float_ops : FloatOps float := {|
  fadd := PrimFloat.add;
  fsub := PrimFloat.sub;
  fmul := PrimFloat.mul;
  fdiv := PrimFloat.div;
  fabs := PrimFloat.abs;
  fgt a b := PrimFloat.ltb b a;
  of_int := float_of_int;
  log2 z := float_of_int (Z.log2 z);
  neg_inf := PrimFloat.neg_infinity;
  fdec m e := PrimFloat.div (float_of_int m) (float_of_int (10 ^ Z.of_nat e))
|}.

(** 1 for an empty cell, 0 for a tile. *)
Definition iz (x : Z) : Z := if decide (x = 0) then 1 else 0.

(** What the game keeps true of its board. *)
Definition playable (g : grid) : Prop :=
  wf_board g ∧ tiles_only g ∧ 0 < grid_sum g.

(** A finite score that is not positive. *)
Definition nonpos (a : xreal) : Prop := ∃ r : R, a = Fin r ∧ (r <= 0)%R.





(** ** play_game *)

Section game.
Context {F : Type} `{FloatOps F}.

(** The [while] loop of [play_game].  [rnd n] stands for the two random
    draws of the tile spawned after move number [n]; the printing of the
    boards is left out.  [fuel] bounds the iterations and [search_fuel] the
    nesting of [expectimax]; [None] means that a bound was reached. *)
Fixpoint play_loop (fuel search_fuel : nat) (rnd : Z → nat * bool)
    (g : grid) (tt : gmap key (result F)) (moves_made move_limit max_depth : Z)
    : option (grid * Z) :=
  match fuel with
  | O => None
  | S fuel' =>
      if negb (game_over g) && (moves_made <? move_limit) then
        '(_, best_direction, tt) ←
          expectimax search_fuel g 0 true max_depth tt;
        match best_direction with
        | None => Some (g, moves_made)
        | Some d =>
            let g := move g d in
            let g := add_random_tile g (rnd moves_made).1 (rnd moves_made).2 in
            play_loop fuel' search_fuel rnd g tt (moves_made + 1) move_limit
              max_depth
        end
      else Some (g, moves_made)
  end.

(** [play_game()]: the table is emptied, a board is set up, the loop runs
    and the largest tile of the final board is returned. *)
Definition play_game (fuel search_fuel : nat) (pick1 : nat) (two1 : bool)
    (pick2 : nat) (two2 : bool) (rnd : Z → nat * bool) : option Z :=
  let transposition_table : gmap key (result F) := ∅ in
  let g := initialize_game pick1 two1 pick2 two2 in
  let moves_made := 0 in
  let move_limit := 1000 in
  let max_depth := 3 in
  '(g, _) ← play_loop fuel search_fuel rnd g transposition_table moves_made
              move_limit max_depth;
  Some (max_list_Z (map max_list_Z g)).

(** A recursive call under which the table only grows. *)
Definition rec_extends
    (rec : grid → gmap key (result F)
           → option (result F * gmap key (result F))) : Prop :=
  ∀ g tt r tt', rec g tt = Some (r, tt') → tt ⊆ tt'.
End game.

(** * Properties *)

(** ** The left-merge pass *)

Example merge_row_2222 : merge_row [2; 2; 2; 2] = [4; 4; 0; 0].
Proof. vm_compute. reflexivity. Qed.

Example move_up_ex :
  move [[2;0;0;0];[0;0;0;0];[0;0;0;0];[0;0;0;0]] Up
  = [[0;0;0;0];[0;0;0;0];[0;0;0;0];[2;0;0;0]].
Proof. vm_compute. reflexivity. Qed.

Lemma nth_middle_Z (pre : list Z) (x : Z) (t : list Z) :
  nth (length pre) (pre ++ x :: t) 0 = x.
Proof. induction pre as [|p pre IH]; simpl; auto. Qed.

Lemma nth_middle_S_Z (pre : list Z) (x y : Z) (t : list Z) :
  nth (S (length pre)) (pre ++ x :: y :: t) 0 = y.
Proof. induction pre as [|p pre IH]; simpl; auto. Qed.

Lemma insert_middle_Z (pre : list Z) (x v : Z) (t : list Z) :
  <[length pre := v]> (pre ++ x :: t) = pre ++ v :: t.
Proof. induction pre as [|p pre IH]; simpl; [reflexivity|]. f_equal. exact IH. Qed.

Lemma delete_middle_S_Z (pre : list Z) (x y : Z) (t : list Z) :
  delete (S (length pre)) (pre ++ x :: y :: t) = pre ++ x :: t.
Proof. induction pre as [|p pre IH]; simpl; [reflexivity|]. f_equal. exact IH. Qed.

(** The body of the loop at position [length pre], when two tiles follow. *)
Lemma merge_body_middle (pre : list Z) (x y : Z) (t : list Z) :
  merge_body (length pre) (pre ++ x :: y :: t)
  = if x =? y then pre ++ (x * 2) :: t ++ [0] else pre ++ x :: y :: t.
Proof.
  unfold merge_body.
  rewrite nth_middle_Z, nth_middle_S_Z.
  destruct (x =? y); [|reflexivity].
  rewrite insert_middle_Z, delete_middle_S_Z.
  rewrite <- app_assoc. reflexivity.
Qed.

Lemma merge_guard_true (pre : list Z) (x y : Z) (t : list Z) :
  (Z.of_nat (length pre) <? Z.of_nat (length (pre ++ x :: y :: t)) - 1) = true.
Proof. rewrite length_app. simpl. apply Z.ltb_lt. lia. Qed.

Lemma merge_guard_false (pre : list Z) (x : Z) :
  (Z.of_nat (length pre) <? Z.of_nat (length (pre ++ [x])) - 1) = false.
Proof. rewrite length_app. simpl. apply Z.ltb_ge. lia. Qed.

Lemma merge_guard_nil (pre : list Z) :
  (Z.of_nat (length pre) <? Z.of_nat (length pre) - 1) = false.
Proof. apply Z.ltb_ge. lia. Qed.

(** Once the scan has reached the trailing zeros it changes nothing. *)
Lemma merge_while_zeros (fuel : nat) :
  ∀ (pre : list Z) (k : nat),
    merge_while fuel (length pre) (pre ++ replicate k 0) = pre ++ replicate k 0.
Proof.
  induction fuel as [|fuel IH]; intros pre k; [reflexivity|].
  simpl. destruct k as [|[|k]]; simpl.
  - rewrite app_nil_r, merge_guard_nil. reflexivity.
  - rewrite merge_guard_false. reflexivity.
  - rewrite merge_guard_true, merge_body_middle. simpl.
    change (0 :: replicate k 0) with (replicate (S k) 0).
    rewrite <- replicate_S_end.
    specialize (IH (pre ++ [0]) (S k)).
    rewrite length_app in IH. simpl in IH.
    replace (length pre + 1)%nat with (S (length pre)) in IH by lia.
    rewrite <- !app_assoc in IH. simpl in IH. exact IH.
Qed.

Lemma merge_pass_length (tiles : list Z) :
  (length (merge_pass tiles) ≤ length tiles)%nat.
Proof.
  induction tiles as [tiles IH] using (induction_ltof1 _ (@length Z)).
  unfold ltof in IH.
  destruct tiles as [|x [|y rest]]; simpl; try lia.
  destruct (x =? y); simpl.
  - specialize (IH rest). simpl in IH. lia.
  - specialize (IH (y :: rest)). simpl in IH. lia.
Qed.

Lemma snoc_position (pre : list Z) (x : Z) (l : list Z) :
  pre ++ x :: l = (pre ++ [x]) ++ l ∧ S (length pre) = length (pre ++ [x]).
Proof. rewrite <- app_assoc, length_app. simpl. split; [reflexivity | lia]. Qed.

(** The loop invariant: with the finished tiles [pre] to the left of the
    scan position, the compacted tiles [rest] still to scan and [k] zeros
    appended so far, the loop finishes the pass on [rest]. *)
Lemma merge_while_pass (n : nat) :
  ∀ (rest pre : list Z) (k fuel : nat),
    (length rest ≤ n)%nat →
    Forall (λ v, v ≠ 0) rest →
    (length rest + k ≤ S fuel)%nat →
    merge_while fuel (length pre) (pre ++ rest ++ replicate k 0)
    = pre ++ merge_pass rest
        ++ replicate (k + (length rest - length (merge_pass rest))) 0.
Proof.
  induction n as [|n IH]; intros rest pre k fuel Hn Hnz Hfuel.
  - destruct rest; [|simpl in Hn; lia]. simpl.
    rewrite Nat.add_0_r. apply merge_while_zeros.
  - destruct rest as [|x [|y rest]].
    + simpl. rewrite Nat.add_0_r. apply merge_while_zeros.
    + simpl. rewrite Nat.add_0_r.
      destruct k as [|k].
      * simpl. destruct fuel; simpl; [reflexivity|].
        rewrite merge_guard_false. reflexivity.
      * destruct fuel as [|fuel]; [simpl in Hfuel; lia|].
        simpl. rewrite merge_guard_true, merge_body_middle.
        inversion Hnz as [|? ? Hx _]; subst.
        destruct (Z.eqb_spec x 0) as [->|_]; [congruence|].
        destruct (snoc_position pre x (replicate (S k) 0)) as [E El].
        change (0 :: replicate k 0) with (replicate (S k) 0).
        rewrite E, El. apply merge_while_zeros.
    + destruct fuel as [|fuel]; [simpl in Hfuel; lia|].
      inversion Hnz as [|? ? Hx Hnz']; subst.
      inversion Hnz' as [|? ? Hy Hnz'']; subst.
      cbn [merge_while app].
      rewrite merge_guard_true, merge_body_middle.
      cbn [merge_pass].
      destruct (x =? y).
      * rewrite <- app_assoc, <- replicate_S_end.
        destruct (snoc_position pre (x * 2) (rest ++ replicate (S k) 0))
          as [E El].
        rewrite E, El, IH by (simpl in *; auto; lia).
        rewrite <- app_assoc. replace (2 * x) with (x * 2) by lia.
        cbn [app length]. do 3 f_equal. f_equal.
        pose proof (merge_pass_length rest). lia.
      * destruct (snoc_position pre x ((y :: rest) ++ replicate k 0))
          as [E El].
        change ((y :: rest) ++ replicate k 0)
          with (y :: rest ++ replicate k 0) in E at 1.
        rewrite E, El, IH by (simpl in *; auto; lia).
        rewrite <- app_assoc. reflexivity.
Qed.

Lemma compact_nonzero (r : row) : Forall (λ v, v ≠ 0) (compact r).
Proof.
  unfold compact. apply Forall_forall. intros v Hv.
  apply list_elem_of_filter in Hv. tauto.
Qed.

(** [merge_row] is compaction, one merge pass and padding. *)
Lemma merge_row_pass (r : row) :
  merge_row r
  = merge_pass (compact r)
      ++ replicate (length (compact r) - length (merge_pass (compact r))) 0
      ++ replicate (4 - length (compact r)) 0.
Proof.
  unfold merge_row. fold (compact r).
  pose proof (merge_while_pass (length (compact r)) (compact r) [] 0
                (length (compact r)) (le_n _) (compact_nonzero r)) as Hp.
  simpl in Hp. rewrite app_nil_r in Hp. rewrite Hp by lia.
  rewrite length_app, length_replicate.
  pose proof (merge_pass_length (compact r)).
  rewrite <- app_assoc. do 2 f_equal. f_equal. lia.
Qed.

Lemma merge_row_is_ref (r : row) :
  (length r ≤ 4)%nat → merge_row r = merge_row_ref r.
Proof.
  intros Hr. rewrite merge_row_pass. unfold merge_row_ref, pad4.
  f_equal. rewrite <- replicate_add. f_equal.
  pose proof (merge_pass_length (compact r)).
  assert (length (compact r) ≤ length r)%nat by apply length_filter.
  lia.
Qed.

Lemma merge_body_length (i : nat) (new_row : row) :
  (S i < length new_row)%nat →
  length (merge_body i new_row) = length new_row.
Proof.
  intros Hi. unfold merge_body.
  destruct (_ =? _); [|reflexivity].
  rewrite length_app, length_delete.
  - rewrite length_insert. simpl. lia.
  - apply lookup_lt_is_Some. rewrite length_insert. lia.
Qed.

(** The index loop always leaves through its guard within the iterations
    that [merge_row] grants it. *)
Lemma merge_while_exits (fuel : nat) :
  ∀ (i : nat) (new_row : row),
    (length new_row ≤ S (fuel + i))%nat →
    merge_loop i new_row (merge_while fuel i new_row).
Proof.
  induction fuel as [|fuel IH]; intros i new_row Hlen; simpl.
  - apply merge_loop_exit. lia.
  - destruct (Z.ltb_spec (Z.of_nat i) (Z.of_nat (length new_row) - 1)) as [Hlt|Hge].
    + apply merge_loop_iter; [exact Hlt|].
      apply IH. rewrite merge_body_length by lia. lia.
    + apply merge_loop_exit. lia.
Qed.

Lemma merge_row_loop (r : row) :
  ∃ final,
    merge_loop 0 (compact r) final
    ∧ merge_row r
      = final ++ replicate (Z.to_nat (4 - Z.of_nat (length final))) 0.
Proof.
  exists (merge_while (length (compact r)) 0 (compact r)). split.
  - apply merge_while_exits. lia.
  - reflexivity.
Qed.

Lemma merge_pass_merged_once (tiles : list Z) :
  merged_once tiles (merge_pass tiles).
Proof.
  induction tiles as [tiles IH] using (induction_ltof1 _ (@length Z)).
  unfold ltof in IH.
  destruct tiles as [|x [|y rest]]; simpl.
  - constructor.
  - repeat constructor.
  - destruct (Z.eqb_spec x y) as [->|_].
    + apply merged_once_pair, IH. simpl. lia.
    + apply merged_once_keep, IH. simpl. lia.
Qed.

Lemma merge_row_length (r : row) :
  (length r ≤ 4)%nat → length (merge_row r) = 4%nat.
Proof.
  intros Hr. rewrite merge_row_pass, !length_app, !length_replicate.
  pose proof (merge_pass_length (compact r)).
  assert (length (compact r) ≤ length r)%nat by apply length_filter.
  lia.
Qed.

Lemma merge_row_4 (r : row) :
  length r = 4%nat → ∃ x y z w, merge_row r = [x; y; z; w].
Proof.
  intros Hr. pose proof (merge_row_length r ltac:(lia)) as Hl.
  destruct (merge_row r) as [|x [|y [|z [|w [|? ?]]]]]; try discriminate.
  eauto.
Qed.

(** *** Sums and tile values along a row *)

Lemma row_sum_app (l1 l2 : list Z) :
  row_sum (l1 ++ l2) = row_sum l1 + row_sum l2.
Proof. induction l1 as [|x l1 IH]; simpl; [reflexivity|]. rewrite IH. lia. Qed.

Lemma row_sum_zeros (k : nat) : row_sum (replicate k 0) = 0.
Proof. induction k as [|k IH]; simpl; [reflexivity|]. exact IH. Qed.

Lemma row_sum_rev (l : list Z) : row_sum (rev l) = row_sum l.
Proof.
  induction l as [|x l IH]; simpl; [reflexivity|].
  rewrite row_sum_app, IH. simpl. lia.
Qed.

Lemma row_sum_compact (r : row) : row_sum (compact r) = row_sum r.
Proof.
  unfold compact. induction r as [|x r IH]; [reflexivity|].
  rewrite filter_cons. destruct (decide (x ≠ 0)) as [Hx|Hx]; simpl.
  - rewrite IH. reflexivity.
  - rewrite IH. apply dec_stable in Hx. lia.
Qed.

Lemma merged_once_sum (tiles out : list Z) :
  merged_once tiles out → row_sum out = row_sum tiles.
Proof. induction 1; simpl; lia. Qed.

Lemma merge_row_sum (r : row) : row_sum (merge_row r) = row_sum r.
Proof.
  rewrite merge_row_pass, !row_sum_app, !row_sum_zeros.
  rewrite (merged_once_sum _ _ (merge_pass_merged_once (compact r))).
  rewrite row_sum_compact. lia.
Qed.

Lemma is_tile_double (v : Z) : is_tile v → is_tile (2 * v).
Proof.
  intros [->|(k & Hk & ->)]; [left; reflexivity|].
  right. exists (k + 1). split; [lia|].
  rewrite Z.pow_add_r by lia. lia.
Qed.

Lemma merged_once_tiles (tiles out : list Z) :
  merged_once tiles out → Forall is_tile tiles → Forall is_tile out.
Proof.
  induction 1 as [|x tiles out _ IH|x tiles out _ IH]; intros Ht.
  - constructor.
  - inversion Ht; subst. constructor; auto.
  - inversion Ht as [|? ? Hx Ht']; subst. inversion Ht'; subst.
    constructor; [apply is_tile_double, Hx | auto].
Qed.

Lemma merge_row_tiles (r : row) :
  Forall is_tile r → Forall is_tile (merge_row r).
Proof.
  intros Hr. rewrite merge_row_pass.
  repeat apply Forall_app_2.
  - apply (merged_once_tiles _ _ (merge_pass_merged_once (compact r))).
    unfold compact. apply Forall_forall. intros v Hv.
    apply list_elem_of_filter in Hv. destruct Hv as [_ Hv].
    rewrite Forall_forall in Hr. auto.
  - apply Forall_replicate. left. reflexivity.
  - apply Forall_replicate. left. reflexivity.
Qed.

(** ** Boards of four rows of four cells *)

Lemma wf_board_cells (g : grid) :
  wf_board g →
  ∃ a1 a2 a3 a4 b1 b2 b3 b4 c1 c2 c3 c4 d1 d2 d3 d4 : Z,
    g = [[a1; a2; a3; a4]; [b1; b2; b3; b4];
         [c1; c2; c3; c4]; [d1; d2; d3; d4]].
Proof.
  intros [Hlen Hrows].
  destruct g as [|r1 [|r2 [|r3 [|r4 [|? ?]]]]]; try discriminate.
  rewrite !Forall_cons in Hrows.
  destruct Hrows as (H1 & H2 & H3 & H4 & _).
  destruct r1 as [|? [|? [|? [|? [|? ?]]]]]; try discriminate.
  destruct r2 as [|? [|? [|? [|? [|? ?]]]]]; try discriminate.
  destruct r3 as [|? [|? [|? [|? [|? ?]]]]]; try discriminate.
  destruct r4 as [|? [|? [|? [|? [|? ?]]]]]; try discriminate.
  repeat eexists.
Qed.

Lemma wf_board_explicit (a1 a2 a3 a4 b1 b2 b3 b4 c1 c2 c3 c4 d1 d2 d3 d4 : Z) :
  wf_board [[a1; a2; a3; a4]; [b1; b2; b3; b4];
            [c1; c2; c3; c4]; [d1; d2; d3; d4]].
Proof. split; [reflexivity|]. repeat constructor. Qed.

(** One quarter turn brings the left column, read upwards, to the top. *)
Lemma rotate_once_cells (a1 a2 a3 a4 b1 b2 b3 b4 c1 c2 c3 c4 d1 d2 d3 d4 : Z) :
  rotate_once [[a1; a2; a3; a4]; [b1; b2; b3; b4];
               [c1; c2; c3; c4]; [d1; d2; d3; d4]]
  = [[d1; c1; b1; a1]; [d2; c2; b2; a2]; [d3; c3; b3; a3]; [d4; c4; b4; a4]].
Proof. reflexivity. Qed.

Lemma rotate_1 (g : grid) : rotate g 1 = rotate_once g.
Proof. reflexivity. Qed.

Lemma rotate_m1 (g : grid) :
  rotate g (-1) = rotate_once (rotate_once (rotate_once g)).
Proof. reflexivity. Qed.

(** What [move] does to the lines of a board, for each direction string:
    ['left'] and ['right'] merge every row towards its first and its last
    cell; ['down'] merges every column towards its first (top) cell and
    ['up'] towards its last (bottom) cell. *)
Lemma move_lines (a1 a2 a3 a4 b1 b2 b3 b4 c1 c2 c3 c4 d1 d2 d3 d4 : Z) :
  let g := [[a1; a2; a3; a4]; [b1; b2; b3; b4];
            [c1; c2; c3; c4]; [d1; d2; d3; d4]] in
  move g Left = map merge_row g
  ∧ move g Right = map (λ r, rev (merge_row (rev r))) g
  ∧ move g Down = columns (map merge_row (columns g))
  ∧ move g Up = columns (map (λ r, rev (merge_row (rev r))) (columns g)).
Proof.
  intros g. subst g. split; [|split; [|split]].
  - reflexivity.
  - unfold move, reverse, merge_left. rewrite !map_map. reflexivity.
  - unfold move. rewrite rotate_m1, rotate_1, !rotate_once_cells.
    cbn [merge_left map columns range4 cell nth].
    destruct (merge_row_4 [a1; b1; c1; d1] eq_refl) as (x1 & y1 & z1 & w1 & ->).
    destruct (merge_row_4 [a2; b2; c2; d2] eq_refl) as (x2 & y2 & z2 & w2 & ->).
    destruct (merge_row_4 [a3; b3; c3; d3] eq_refl) as (x3 & y3 & z3 & w3 & ->).
    destruct (merge_row_4 [a4; b4; c4; d4] eq_refl) as (x4 & y4 & z4 & w4 & ->).
    reflexivity.
  - unfold move. rewrite rotate_m1, rotate_1, !rotate_once_cells.
    cbn [merge_left map columns range4 cell nth rev app].
    destruct (merge_row_4 [d1; c1; b1; a1] eq_refl) as (x1 & y1 & z1 & w1 & ->).
    destruct (merge_row_4 [d2; c2; b2; a2] eq_refl) as (x2 & y2 & z2 & w2 & ->).
    destruct (merge_row_4 [d3; c3; b3; a3] eq_refl) as (x3 & y3 & z3 & w3 & ->).
    destruct (merge_row_4 [d4; c4; b4; a4] eq_refl) as (x4 & y4 & z4 & w4 & ->).
    reflexivity.
Qed.

(** On every 4x4 board [move] agrees with the reference implementation for
    ['left'] and ['right'], and does for ['up'] what the reference does for
    ['down'] and the other way round. *)
Lemma move_reference (g : grid) :
  wf_board g →
  move g Left = move_ref g Left
  ∧ move g Right = move_ref g Right
  ∧ move g Up = move_ref g Down
  ∧ move g Down = move_ref g Up.
Proof.
  intros Hwf.
  destruct (wf_board_cells g Hwf)
    as (a1 & a2 & a3 & a4 & b1 & b2 & b3 & b4
        & c1 & c2 & c3 & c4 & d1 & d2 & d3 & d4 & ->).
  destruct (move_lines a1 a2 a3 a4 b1 b2 b3 b4 c1 c2 c3 c4 d1 d2 d3 d4)
    as (HL & HR & HD & HU).
  cbv zeta in HL, HR, HD, HU.
  split; [|split; [|split]].
  - reflexivity.
  - rewrite HR. unfold move_ref, reorient, unorient, merge_left.
    rewrite !map_map. reflexivity.
  - rewrite HU. unfold move_ref, reorient, unorient, merge_left.
    rewrite !map_map. reflexivity.
  - rewrite HD. reflexivity.
Qed.

(** ** Sums and tile values over a move *)

Ltac merged_line l :=
  let x := fresh "x" in let y := fresh "y" in
  let z := fresh "z" in let w := fresh "w" in
  let E := fresh "E" in let Hs := fresh "Hs" in let Ht := fresh "Ht" in
  pose proof (merge_row_sum l) as Hs;
  pose proof (merge_row_tiles l) as Ht;
  destruct (merge_row_4 l eq_refl) as (x & y & z & w & E);
  rewrite E in Hs, Ht; rewrite ?E.

Ltac merged_lines :=
  repeat match goal with
         | |- context [merge_row ?l] => merged_line l
         end.

Lemma move_sum (g : grid) (d : direction) :
  wf_board g → grid_sum (move g d) = grid_sum g.
Proof.
  intros Hwf.
  destruct (wf_board_cells g Hwf)
    as (a1 & a2 & a3 & a4 & b1 & b2 & b3 & b4
        & c1 & c2 & c3 & c4 & d1 & d2 & d3 & d4 & ->).
  destruct (move_lines a1 a2 a3 a4 b1 b2 b3 b4 c1 c2 c3 c4 d1 d2 d3 d4)
    as (HL & HR & HD & HU).
  cbv zeta in HL, HR, HD, HU.
  destruct d; [rewrite HU | rewrite HD | rewrite HL | rewrite HR].
  all: cbn [map columns range4 cell nth rev app].
  all: merged_lines.
  all: unfold grid_sum, row_sum in *.
  all: cbn [map columns range4 cell nth rev app concat foldr] in *.
  all: lia.
Qed.

Lemma move_tiles (g : grid) (d : direction) :
  wf_board g → tiles_only g → tiles_only (move g d).
Proof.
  intros Hwf.
  destruct (wf_board_cells g Hwf)
    as (a1 & a2 & a3 & a4 & b1 & b2 & b3 & b4
        & c1 & c2 & c3 & c4 & d1 & d2 & d3 & d4 & ->).
  destruct (move_lines a1 a2 a3 a4 b1 b2 b3 b4 c1 c2 c3 c4 d1 d2 d3 d4)
    as (HL & HR & HD & HU).
  cbv zeta in HL, HR, HD, HU.
  unfold tiles_only. rewrite !Forall_cons.
  intros ((A1 & A2 & A3 & A4 & _) & (B1 & B2 & B3 & B4 & _)
          & (C1 & C2 & C3 & C4 & _) & (D1 & D2 & D3 & D4 & _) & _).
  destruct d; [rewrite HU | rewrite HD | rewrite HL | rewrite HR];
    clear HU HD HL HR Hwf;
    cbn [map columns range4 cell nth rev app]; merged_lines;
    repeat match goal with
           | H : Forall is_tile _ → Forall is_tile _ |- _ =>
               let H' := fresh in
               assert (H' := H ltac:(repeat apply Forall_cons_2; auto));
               clear H; rewrite !Forall_cons in H'
           end;
    cbn [map columns range4 cell nth rev app].
  all: repeat apply Forall_cons_2; try apply Forall_nil_2; tauto.
Qed.

(** ** Terminal boards and possible moves *)

Lemma line_stuck (a b c d : Z) :
  stuck a b c d
  ↔ (a = 0 ∧ b = 0 ∧ c = 0 ∧ d = 0)
    ∨ (a ≠ 0 ∧ b ≠ 0 ∧ c ≠ 0 ∧ d ≠ 0 ∧ a ≠ b ∧ b ≠ c ∧ c ≠ d).
Proof.
  unfold stuck. rewrite !merge_row_is_ref by (simpl; lia).
  unfold merge_row_ref, compact.
  rewrite !filter_cons, !filter_nil.
  destruct (decide (a = 0)) as [->|Ha], (decide (b = 0)) as [->|Hb],
    (decide (c = 0)) as [->|Hc], (decide (d = 0)) as [->|Hd];
    repeat case_decide; try congruence;
    cbn [merge_pass];
    repeat match goal with
           | |- context [?x =? ?y] => destruct (Z.eqb_spec x y)
           end;
    cbn [merge_pass pad4 length app replicate Nat.sub rev].
  all: (split; [intros [E1 E2]; simplify_eq; try lia; try (right; repeat split; lia)
              | intros [?|?]; try (exfalso; lia); try (split; f_equal; lia) ]).
Qed.

Lemma get_possible_moves_nil (g : grid) :
  get_possible_moves g = []
  ↔ move g Up = g ∧ move g Down = g ∧ move g Left = g ∧ move g Right = g.
Proof.
  unfold get_possible_moves. cbn [foldl].
  generalize (move g Up) (move g Down) (move g Left) (move g Right).
  intros u d l r.
  repeat case_bool_decide; cbn [app]; split; intros Hm;
    try discriminate; try tauto;
    destruct Hm as (? & ? & ? & ?); congruence.
Qed.

Lemma moves_fixed_lines (a1 a2 a3 a4 b1 b2 b3 b4 c1 c2 c3 c4 d1 d2 d3 d4 : Z) :
  let g := [[a1; a2; a3; a4]; [b1; b2; b3; b4];
            [c1; c2; c3; c4]; [d1; d2; d3; d4]] in
  get_possible_moves g = []
  ↔ (stuck a1 a2 a3 a4 ∧ stuck b1 b2 b3 b4
     ∧ stuck c1 c2 c3 c4 ∧ stuck d1 d2 d3 d4)
    ∧ (stuck a1 b1 c1 d1 ∧ stuck a2 b2 c2 d2
       ∧ stuck a3 b3 c3 d3 ∧ stuck a4 b4 c4 d4).
Proof.
  intros g. rewrite get_possible_moves_nil. subst g.
  destruct (move_lines a1 a2 a3 a4 b1 b2 b3 b4 c1 c2 c3 c4 d1 d2 d3 d4)
    as (HL & HR & HD & HU).
  cbv zeta in HL, HR, HD, HU. rewrite HL, HR, HD, HU.
  clear HL HR HD HU. unfold stuck.
  cbn [map columns range4 cell nth rev app].
  merged_lines.
  repeat match goal with H : _ |- _ => clear H end.
  cbn [map columns range4 cell nth rev app].
  (split; intros H; repeat match goal with H : _ ∧ _ |- _ => destruct H end;
    simplify_eq; repeat split; reflexivity).
Qed.

Lemma game_over_cells (a1 a2 a3 a4 b1 b2 b3 b4 c1 c2 c3 c4 d1 d2 d3 d4 : Z) :
  game_over [[a1; a2; a3; a4]; [b1; b2; b3; b4];
             [c1; c2; c3; c4]; [d1; d2; d3; d4]] = true
  ↔ (a1 ≠ 0 ∧ a2 ≠ 0 ∧ a3 ≠ 0 ∧ a4 ≠ 0 ∧ b1 ≠ 0 ∧ b2 ≠ 0 ∧ b3 ≠ 0 ∧ b4 ≠ 0
     ∧ c1 ≠ 0 ∧ c2 ≠ 0 ∧ c3 ≠ 0 ∧ c4 ≠ 0 ∧ d1 ≠ 0 ∧ d2 ≠ 0 ∧ d3 ≠ 0 ∧ d4 ≠ 0)
    ∧ (a1 ≠ a2 ∧ a2 ≠ a3 ∧ a3 ≠ a4 ∧ b1 ≠ b2 ∧ b2 ≠ b3 ∧ b3 ≠ b4
       ∧ c1 ≠ c2 ∧ c2 ≠ c3 ∧ c3 ≠ c4 ∧ d1 ≠ d2 ∧ d2 ≠ d3 ∧ d3 ≠ d4)
    ∧ (a1 ≠ b1 ∧ b1 ≠ c1 ∧ c1 ≠ d1 ∧ a2 ≠ b2 ∧ b2 ≠ c2 ∧ c2 ≠ d2
       ∧ a3 ≠ b3 ∧ b3 ≠ c3 ∧ c3 ≠ d3 ∧ a4 ≠ b4 ∧ b4 ≠ c4 ∧ c4 ≠ d4).
Proof.
  unfold game_over.
  cbn [existsb forallb cells4 range4 mbind list_bind app cell nth
       Nat.ltb Nat.leb Nat.add andb orb negb].
  rewrite ?orb_false_r, ?andb_true_r.
  match goal with
  | |- (if ?E then false else ?R) = true ↔ _ =>
      transitivity (E = false ∧ R = true);
      [destruct E; intuition congruence|]
  end.
  rewrite !orb_false_iff, !andb_true_iff, !negb_true_iff, !orb_false_iff,
    !Z.eqb_neq.
  split; intros H; destruct_and?; repeat split;
    solve [assumption | apply not_eq_sym; assumption].
Qed.

Lemma has_nonzero_cells (a1 a2 a3 a4 b1 b2 b3 b4 c1 c2 c3 c4 d1 d2 d3 d4 : Z) :
  has_nonzero [[a1; a2; a3; a4]; [b1; b2; b3; b4];
               [c1; c2; c3; c4]; [d1; d2; d3; d4]] = true
  ↔ ¬ (a1 = 0 ∧ a2 = 0 ∧ a3 = 0 ∧ a4 = 0 ∧ b1 = 0 ∧ b2 = 0 ∧ b3 = 0 ∧ b4 = 0
       ∧ c1 = 0 ∧ c2 = 0 ∧ c3 = 0 ∧ c4 = 0
       ∧ d1 = 0 ∧ d2 = 0 ∧ d3 = 0 ∧ d4 = 0).
Proof.
  unfold has_nonzero. cbn [existsb].
  rewrite ?orb_false_r, !orb_true_iff, !negb_true_iff, !Z.eqb_neq.
  split.
  - intros Hex Hall. destruct_and?. destruct_or?; contradiction.
  - intros Hall.
    destruct (decide (a1 = 0)); [|tauto]. destruct (decide (a2 = 0)); [|tauto].
    destruct (decide (a3 = 0)); [|tauto]. destruct (decide (a4 = 0)); [|tauto].
    destruct (decide (b1 = 0)); [|tauto]. destruct (decide (b2 = 0)); [|tauto].
    destruct (decide (b3 = 0)); [|tauto]. destruct (decide (b4 = 0)); [|tauto].
    destruct (decide (c1 = 0)); [|tauto]. destruct (decide (c2 = 0)); [|tauto].
    destruct (decide (c3 = 0)); [|tauto]. destruct (decide (c4 = 0)); [|tauto].
    destruct (decide (d1 = 0)); [|tauto]. destruct (decide (d2 = 0)); [|tauto].
    destruct (decide (d3 = 0)); [|tauto]. destruct (decide (d4 = 0)); [|tauto].
    exfalso. apply Hall. repeat split; assumption.
Qed.

Lemma game_over_no_moves (g : grid) :
  wf_board g → has_nonzero g = true →
  (game_over g = true ↔ get_possible_moves g = []).
Proof.
  intros Hwf.
  destruct (wf_board_cells g Hwf)
    as (a1 & a2 & a3 & a4 & b1 & b2 & b3 & b4
        & c1 & c2 & c3 & c4 & d1 & d2 & d3 & d4 & ->).
  rewrite has_nonzero_cells, game_over_cells, moves_fixed_lines.
  rewrite !line_stuck.
  intros Hnz. split.
  - intros H. destruct_and?.
    repeat split; right; repeat split; assumption.
  - intros ((Ra & Rb & Rc & Rd) & (C1 & C2 & C3 & C4)).
    destruct Ra as [Ra|Ra], C1 as [C1|C1]; destruct_and?; try congruence;
      (destruct Rb as [Rb|Rb]; destruct_and?; try congruence);
      (destruct Rc as [Rc|Rc]; destruct_and?; try congruence);
      (destruct Rd as [Rd|Rd]; destruct_and?; try congruence);
      (destruct C2 as [C2|C2]; destruct_and?; try congruence);
      (destruct C3 as [C3|C3]; destruct_and?; try congruence);
      (destruct C4 as [C4|C4]; destruct_and?; try congruence).
    + exfalso. apply Hnz. repeat split; assumption.
    + repeat split; assumption.
Qed.

(** ** Spawning tiles *)

Lemma is_tile_2 : is_tile 2.
Proof. right. exists 1. split; [lia | reflexivity]. Qed.

Lemma is_tile_4 : is_tile 4.
Proof. right. exists 2. split; [lia | reflexivity]. Qed.

Lemma set_cell_tiles (g : grid) (r c : nat) (v : Z) :
  tiles_only g → is_tile v → tiles_only (set_cell g r c v).
Proof.
  intros Hg Hv. unfold tiles_only, set_cell.
  apply Forall_insert; [exact Hg|].
  apply Forall_insert; [|exact Hv].
  destruct (nth_lookup_or_length g r []) as [Hr|Hr].
  - exact (Forall_lookup_1 _ _ _ _ Hg Hr).
  - rewrite nth_overflow by lia. constructor.
Qed.

Lemma add_random_tile_tiles (g : grid) (pick : nat) (two : bool) :
  tiles_only g → tiles_only (add_random_tile g pick two).
Proof.
  intros Hg. unfold add_random_tile.
  destruct (empty_cells g) as [|e es]; [exact Hg|].
  destruct (nth pick (e :: es) e) as [r c].
  apply set_cell_tiles; [exact Hg|].
  destruct two; [apply is_tile_2 | apply is_tile_4].
Qed.

Lemma initialize_game_tiles (pick1 : nat) (two1 : bool)
    (pick2 : nat) (two2 : bool) :
  tiles_only (initialize_game pick1 two1 pick2 two2).
Proof.
  unfold initialize_game. do 2 apply add_random_tile_tiles.
  repeat constructor.
Qed.

(** ** The heuristic score *)

Lemma foldl_add_shift (l : list Z) (a : Z) :
  foldl Z.add a l = a + foldl Z.add 0 l.
Proof.
  revert a. induction l as [|x l IH]; intros a; cbn [foldl]; [lia|].
  rewrite (IH (a + x)), (IH (0 + x)). lia.
Qed.

Lemma empty_tile_heuristic_zero_cells (g : grid) :
  empty_tile_heuristic g = zero_cells g.
Proof.
  unfold empty_tile_heuristic, zero_cells.
  induction g as [|r g IH]; [reflexivity|].
  cbn [map foldl concat]. rewrite foldl_add_shift, IH.
  rewrite filter_app, length_app. unfold count0. lia.
Qed.

Lemma foldl_max_foldr (l : list Z) :
  Forall (λ v, 0 ≤ v) l →
  ∀ x, 0 ≤ x → foldl Z.max x l = Z.max x (foldr Z.max 0 l).
Proof.
  induction 1 as [|y l Hy _ IH]; intros x Hx; simpl; [lia|].
  rewrite IH by lia. lia.
Qed.

Lemma max_list_Z_foldr (l : list Z) :
  Forall (λ v, 0 ≤ v) l → max_list_Z l = foldr Z.max 0 l.
Proof.
  intros Hl. destruct Hl as [|x l Hx Hl]; [reflexivity|].
  simpl. rewrite foldl_max_foldr by assumption.
  reflexivity.
Qed.

Lemma foldr_max_nonneg (l : list Z) : 0 ≤ foldr Z.max 0 l.
Proof. induction l; simpl; lia. Qed.

Lemma foldr_max_app (l1 l2 : list Z) :
  foldr Z.max 0 (l1 ++ l2) = Z.max (foldr Z.max 0 l1) (foldr Z.max 0 l2).
Proof.
  induction l1 as [|x l1 IH]; simpl.
  - pose proof (foldr_max_nonneg l2). lia.
  - rewrite IH. lia.
Qed.

Lemma max_tile_largest (g : grid) :
  Forall (Forall (λ v, 0 ≤ v)) g →
  max_list_Z (map max_list_Z g) = largest_tile g.
Proof.
  intros Hg. unfold largest_tile.
  rewrite max_list_Z_foldr.
  - induction Hg as [|r g Hr _ IH]; [reflexivity|].
    cbn [map foldr concat].
    rewrite foldr_max_app, IH, (max_list_Z_foldr r Hr). reflexivity.
  - apply Forall_map. apply (Forall_impl _ _ _ Hg). intros r Hr.
    simpl. rewrite (max_list_Z_foldr r Hr). apply foldr_max_nonneg.
Qed.

Lemma foldr_max_zero (l : list Z) :
  Forall (λ v, 0 ≤ v) l →
  (foldr Z.max 0 l = 0 ↔ Forall (λ v, v = 0) l).
Proof.
  induction 1 as [|x l Hx _ IH]; simpl.
  - split; [constructor | reflexivity].
  - pose proof (foldr_max_nonneg l). rewrite Forall_cons, <- IH. lia.
Qed.

Lemma largest_tile_zero (g : grid) :
  Forall (Forall (λ v, 0 ≤ v)) g →
  (largest_tile g = 0 ↔ Forall (Forall (λ v, v = 0)) g).
Proof.
  unfold largest_tile.
  induction 1 as [|r g Hr _ IH]; cbn [concat].
  - split; [constructor | reflexivity].
  - rewrite foldr_max_app, Forall_cons, <- IH, <- (foldr_max_zero r Hr).
    pose proof (foldr_max_nonneg r). pose proof (foldr_max_nonneg (concat g)).
    lia.
Qed.

Section heuristic_facts.
Context {F : Type} `{FloatOps F}.

Lemma combined_heuristic_score (g : grid) :
  Forall (Forall (λ v, 0 ≤ v)) g →
  combined_heuristic g = combined_score g.
Proof.
  intros Hg. unfold combined_heuristic, combined_score, max_tile_heuristic.
  rewrite empty_tile_heuristic_zero_cells, (max_tile_largest g Hg).
  do 3 f_equal.
  pose proof (largest_tile_zero g Hg) as Hz.
  repeat case_bool_decide; try reflexivity; tauto.
Qed.
End heuristic_facts.

Section smoothness_facts.
Context {F : Type} `{FloatOps F}.

(** In the two scan directions the [while] loop of [smoothness_heuristic]
    has left the board before the iterations it is granted run out: more
    iterations change nothing. *)
Lemma smooth_scan_enough (g : grid) (dx dy : nat) (value : F) (fuel : nat) :
  (dx + dy = 1)%nat →
  ∀ (nx ny : nat) (smoothness : F),
    (4 ≤ fuel + dx * nx + dy * ny)%nat →
    smooth_scan (S fuel) g nx ny dx dy value smoothness
    = smooth_scan fuel g nx ny dx dy value smoothness.
Proof.
  intros Hdir. induction fuel as [|fuel IH]; intros nx ny smoothness Hfuel.
  - cbn [smooth_scan].
    destruct (Nat.ltb_spec nx 4), (Nat.ltb_spec ny 4); try reflexivity.
    destruct dx as [|[|dx]], dy as [|[|dy]]; lia.
  - cbn [smooth_scan] in *.
    destruct ((nx <? 4)%nat && (ny <? 4)%nat); [|reflexivity].
    destruct (bool_decide _); [reflexivity|].
    apply IH. destruct dx as [|[|dx]], dy as [|[|dy]]; lia.
Qed.

Lemma smooth_scan_4 (g : grid) (x y dx dy : nat) (value smoothness : F)
    (more : nat) :
  (dx + dy = 1)%nat →
  smooth_scan (4 + more) g (x + dx) (y + dy) dx dy value smoothness
  = smooth_scan 4 g (x + dx) (y + dy) dx dy value smoothness.
Proof.
  intros Hdir. induction more as [|more IH]; [reflexivity|].
  rewrite <- IH. replace (4 + S more)%nat with (S (4 + more)) by lia.
  apply smooth_scan_enough; [exact Hdir|].
  destruct dx as [|[|dx]], dy as [|[|dy]]; lia.
Qed.
End smoothness_facts.

(** ** The search *)

Section search_facts.
Context {F : Type} `{FloatOps F}.

(** *** The recursion without table *)

Lemma max_loop_nomemo_ext (rec1 rec2 : grid → option (result F)) :
  (∀ g, rec1 g = rec2 g) →
  ∀ moves max_score best,
    max_loop_nomemo rec1 moves max_score best
    = max_loop_nomemo rec2 moves max_score best.
Proof.
  intros Hrec moves. induction moves as [|[d new_grid] moves IH];
    intros max_score best; simpl; [reflexivity|].
  rewrite Hrec. destruct (rec2 new_grid) as [[score ?]|]; simpl; [|reflexivity].
  destruct (fgt score max_score); apply IH.
Qed.

Lemma spawn_loop_nomemo_ext (rec1 rec2 : grid → option (result F)) :
  (∀ g, rec1 g = rec2 g) →
  ∀ g r c total outcomes score,
    spawn_loop_nomemo rec1 g r c total outcomes score
    = spawn_loop_nomemo rec2 g r c total outcomes score.
Proof.
  intros Hrec g r c total outcomes.
  induction outcomes as [|[value probability] outcomes IH]; intros score;
    simpl; [reflexivity|].
  rewrite Hrec. destruct (rec2 _) as [[tile_score ?]|]; simpl; [|reflexivity].
  apply IH.
Qed.

Lemma chance_loop_nomemo_ext (rec1 rec2 : grid → option (result F)) :
  (∀ g, rec1 g = rec2 g) →
  ∀ g total cells score,
    chance_loop_nomemo rec1 g total cells score
    = chance_loop_nomemo rec2 g total cells score.
Proof.
  intros Hrec g total cells.
  induction cells as [|[r c] cells IH]; intros score;
    cbn [chance_loop_nomemo]; [reflexivity|].
  rewrite (spawn_loop_nomemo_ext rec1 rec2 Hrec).
  destruct (spawn_loop_nomemo rec2 _ _ _ _ _ _); simpl; [|reflexivity].
  apply IH.
Qed.

(** Beyond [max_depth - depth] nested calls the bound plays no part. *)
Lemma expectimax_nomemo_fuel (max_depth : Z) (n : nat) :
  ∀ (m : nat) (g : grid) (depth : Z) (player_turn : bool),
    depth ≤ max_depth →
    max_depth - depth < Z.of_nat n → max_depth - depth < Z.of_nat m →
    expectimax_nomemo n g depth player_turn max_depth
    = expectimax_nomemo m g depth player_turn max_depth.
Proof.
  induction n as [|n IH]; intros m g depth player_turn Hd Hn Hm; [lia|].
  destruct m as [|m]; [lia|].
  cbn [expectimax_nomemo].
  destruct (Z.eqb_spec depth max_depth) as [->|Hne]; [reflexivity|].
  cbn [orb].
  destruct (game_over g); [reflexivity|].
  destruct player_turn.
  - apply max_loop_nomemo_ext. intros g'. apply IH; lia.
  - destruct (bool_decide _); [reflexivity|].
    erewrite chance_loop_nomemo_ext; [reflexivity|].
    intros g'. apply IH; lia.
Qed.

Lemma max_loop_nomemo_total (rec : grid → option (result F)) :
  (∀ g, is_Some (rec g)) →
  ∀ moves max_score best, is_Some (max_loop_nomemo rec moves max_score best).
Proof.
  intros Hrec moves. induction moves as [|[d new_grid] moves IH];
    intros max_score best; simpl; [eauto|].
  destruct (Hrec new_grid) as [[score ?] ->]. simpl.
  destruct (fgt score max_score); apply IH.
Qed.

Lemma chance_loop_nomemo_total (rec : grid → option (result F)) :
  (∀ g, is_Some (rec g)) →
  ∀ g total cells score,
    is_Some (chance_loop_nomemo rec g total cells score).
Proof.
  intros Hrec g total cells.
  induction cells as [|[r c] cells IH]; intros score; simpl; [eauto|].
  unfold tile_values, probabilities. cbn [zip zip_with spawn_loop_nomemo].
  destruct (Hrec (set_cell g r c 2)) as [[s2 ?] ->]. simpl.
  destruct (Hrec (set_cell g r c 4)) as [[s4 ?] ->]. simpl.
  apply IH.
Qed.

Lemma expectimax_nomemo_total (max_depth : Z) (fuel : nat) :
  ∀ (g : grid) (depth : Z) (player_turn : bool),
    depth ≤ max_depth → max_depth - depth < Z.of_nat fuel →
    is_Some (expectimax_nomemo fuel g depth player_turn max_depth).
Proof.
  induction fuel as [|fuel IH]; intros g depth player_turn Hd Hfuel; [lia|].
  cbn [expectimax_nomemo].
  destruct (Z.eqb_spec depth max_depth) as [->|Hne]; [eauto|].
  cbn [orb].
  destruct (game_over g); [eauto|].
  destruct player_turn.
  - apply max_loop_nomemo_total. intros g'. apply IH; lia.
  - destruct (bool_decide _); [eauto|].
    destruct (chance_loop_nomemo_total
                (λ grid_new, expectimax_nomemo fuel grid_new (depth + 1) true
                               max_depth)
                ltac:(intros g'; apply IH; lia)
                g (Z.of_nat (length (empty_cells g))) (empty_cells g)
                (of_int 0)) as [score ->].
    simpl. eauto.
Qed.

(** *** The recursion with the table *)

Lemma table_sound_empty (max_depth : Z) : table_sound max_depth ∅.
Proof. intros g depth player_turn r Hl. rewrite lookup_empty in Hl. discriminate. Qed.

(** Storing what the recursion without table returns keeps a table sound. *)
Lemma table_sound_insert (max_depth : Z) (tt : gmap key (result F))
    (fuel : nat) (g : grid) (depth : Z) (player_turn : bool) (r : result F) :
  table_sound max_depth tt →
  depth ≤ max_depth → max_depth - depth < Z.of_nat fuel →
  expectimax_nomemo fuel g depth player_turn max_depth = Some r →
  table_sound max_depth (<[(g, depth, player_turn) := r]> tt).
Proof.
  intros Htt Hd Hfuel Hr g' depth' player_turn' r' Hl.
  destruct (decide ((g, depth, player_turn) = (g', depth', player_turn')))
    as [Heq|Hne].
  - rewrite Heq, lookup_insert_eq in Hl. inversion Heq; subst.
    inversion Hl; subst. split; [exact Hd|].
    intros fuel' Hfuel'. rewrite <- Hr.
    apply expectimax_nomemo_fuel; assumption.
  - rewrite lookup_insert_ne in Hl by exact Hne. exact (Htt _ _ _ _ Hl).
Qed.

Lemma max_loop_agrees (max_depth : Z) rec rec_nomemo :
  rec_agrees max_depth rec rec_nomemo →
  ∀ moves max_score best tt, table_sound max_depth tt →
    ∃ r tt',
      max_loop rec moves max_score best tt = Some (r, tt')
      ∧ max_loop_nomemo rec_nomemo moves max_score best = Some r
      ∧ table_sound max_depth tt'.
Proof.
  intros Hrec moves. induction moves as [|[d new_grid] moves IH];
    intros max_score best tt Htt; cbn [max_loop max_loop_nomemo].
  - eauto.
  - destruct (Hrec new_grid tt Htt) as ([score dir] & tt1 & -> & -> & Htt1).
    simpl. destruct (fgt score max_score); apply IH; exact Htt1.
Qed.

Lemma spawn_loop_agrees (max_depth : Z) rec rec_nomemo :
  rec_agrees max_depth rec rec_nomemo →
  ∀ g r c total outcomes score tt, table_sound max_depth tt →
    ∃ score' tt',
      spawn_loop rec g r c total outcomes score tt = Some (score', tt')
      ∧ spawn_loop_nomemo rec_nomemo g r c total outcomes score = Some score'
      ∧ table_sound max_depth tt'.
Proof.
  intros Hrec g r c total outcomes.
  induction outcomes as [|[value probability] outcomes IH];
    intros score tt Htt; cbn [spawn_loop spawn_loop_nomemo].
  - eauto.
  - destruct (Hrec (set_cell g r c value) tt Htt)
      as ([tile_score dir] & tt1 & -> & -> & Htt1).
    simpl. apply IH; exact Htt1.
Qed.

Lemma chance_loop_agrees (max_depth : Z) rec rec_nomemo :
  rec_agrees max_depth rec rec_nomemo →
  ∀ g total cells score tt, table_sound max_depth tt →
    ∃ score' tt',
      chance_loop rec g total cells score tt = Some (score', tt')
      ∧ chance_loop_nomemo rec_nomemo g total cells score = Some score'
      ∧ table_sound max_depth tt'.
Proof.
  intros Hrec g total cells.
  induction cells as [|[r c] cells IH]; intros score tt Htt;
    cbn [chance_loop chance_loop_nomemo].
  - eauto.
  - destruct (spawn_loop_agrees max_depth rec rec_nomemo Hrec g r c total
                (zip tile_values probabilities) score tt Htt)
      as (score1 & tt1 & -> & -> & Htt1).
    simpl. apply IH; exact Htt1.
Qed.

(** From a sound table, [expectimax] returns what the recursion without
    table returns, and leaves a sound table. *)
Lemma expectimax_agrees (max_depth : Z) (fuel : nat) :
  ∀ (depth : Z) (player_turn : bool),
    depth ≤ max_depth → max_depth - depth < Z.of_nat fuel →
    rec_agrees max_depth
      (λ g tt, expectimax fuel g depth player_turn max_depth tt)
      (λ g, expectimax_nomemo fuel g depth player_turn max_depth).
Proof.
  induction fuel as [|fuel IH]; intros depth player_turn Hd Hfuel g tt Htt;
    [lia|].
  cbn [expectimax].
  destruct (tt !! (g, depth, player_turn)) as [cached|] eqn:Hl.
  { exists cached, tt. split; [reflexivity|]. split; [|exact Htt].
    apply (Htt _ _ _ _ Hl). exact Hfuel. }
  assert (Hleaf : (depth =? max_depth) || game_over g = true →
            expectimax_nomemo (S fuel) g depth player_turn max_depth
            = Some (combined_heuristic g, None)).
  { intros Hc. cbn [expectimax_nomemo]. rewrite Hc. reflexivity. }
  destruct ((depth =? max_depth) || game_over g) eqn:Hc.
  { eexists _, _. split; [reflexivity|]. split; [auto|].
    eapply table_sound_insert; eauto. }
  clear Hleaf.
  assert (Hnext : depth + 1 ≤ max_depth ∧ max_depth - (depth + 1) < Z.of_nat fuel).
  { apply orb_false_elim in Hc. destruct Hc as [Hc _].
    apply Z.eqb_neq in Hc. lia. }
  destruct Hnext as [Hd1 Hfuel1].
  destruct player_turn.
  - destruct (max_loop_agrees max_depth _ _ (IH (depth + 1) false Hd1 Hfuel1)
                (get_possible_moves g) neg_inf None tt Htt)
      as ([max_score best] & tt1 & -> & Hn & Htt1).
    assert (Hnm : expectimax_nomemo (S fuel) g depth true max_depth
                  = Some (max_score, best)).
    { cbn [expectimax_nomemo]. rewrite Hc. exact Hn. }
    eexists _, _. split; [reflexivity|]. split; [exact Hnm|].
    eapply table_sound_insert; eauto.
  - assert (Hempty : expectimax_nomemo (S fuel) g depth false max_depth
              = if bool_decide (empty_cells g = [])
                then Some (combined_heuristic g, None)
                else score ← chance_loop_nomemo
                       (λ grid_new, expectimax_nomemo fuel grid_new
                                      (depth + 1) true max_depth)
                       g (Z.of_nat (length (empty_cells g))) (empty_cells g)
                       (of_int 0);
                     Some (score, None)).
    { cbn [expectimax_nomemo]. rewrite Hc. reflexivity. }
    destruct (bool_decide (empty_cells g = [])).
    { eexists _, _. split; [reflexivity|]. split; [exact Hempty|].
      eapply table_sound_insert; eauto. }
    destruct (chance_loop_agrees max_depth _ _ (IH (depth + 1) true Hd1 Hfuel1)
                g (Z.of_nat (length (empty_cells g))) (empty_cells g)
                (of_int 0) tt Htt)
      as (score & tt1 & -> & Hn & Htt1).
    rewrite Hn in Hempty. simpl in Hempty.
    eexists _, _. split; [reflexivity|]. split; [exact Hempty|].
    eapply table_sound_insert; eauto.
Qed.

(** *** Termination, whatever the table holds *)

Lemma max_loop_total
    (rec : grid → gmap key (result F) → option (result F * gmap key (result F))) :
  (∀ g tt, is_Some (rec g tt)) →
  ∀ moves max_score best tt, is_Some (max_loop rec moves max_score best tt).
Proof.
  intros Hrec moves. induction moves as [|[d new_grid] moves IH];
    intros max_score best tt; cbn [max_loop]; [eauto|].
  destruct (Hrec new_grid tt) as [[[score ?] tt1] ->]. simpl.
  destruct (fgt score max_score); apply IH.
Qed.

Lemma chance_loop_total
    (rec : grid → gmap key (result F) → option (result F * gmap key (result F))) :
  (∀ g tt, is_Some (rec g tt)) →
  ∀ g total cells score tt,
    is_Some (chance_loop rec g total cells score tt).
Proof.
  intros Hrec g total cells.
  induction cells as [|[r c] cells IH]; intros score tt;
    cbn [chance_loop]; [eauto|].
  unfold tile_values, probabilities. cbn [zip zip_with spawn_loop].
  destruct (Hrec (set_cell g r c 2) tt) as [[[s2 ?] tt1] ->]. simpl.
  destruct (Hrec (set_cell g r c 4) tt1) as [[[s4 ?] tt2] ->]. simpl.
  apply IH.
Qed.

Lemma expectimax_total (max_depth : Z) (fuel : nat) :
  ∀ (g : grid) (depth : Z) (player_turn : bool) (tt : gmap key (result F)),
    depth ≤ max_depth → max_depth - depth < Z.of_nat fuel →
    is_Some (expectimax fuel g depth player_turn max_depth tt).
Proof.
  induction fuel as [|fuel IH]; intros g depth player_turn tt Hd Hfuel; [lia|].
  cbn [expectimax].
  destruct (tt !! (g, depth, player_turn)); [eauto|].
  destruct (Z.eqb_spec depth max_depth) as [->|Hne]; [eauto|].
  cbn [orb].
  destruct (game_over g); [eauto|].
  destruct player_turn.
  - destruct (max_loop_total
                (λ new_grid tt, expectimax fuel new_grid (depth + 1) false
                                  max_depth tt)
                ltac:(intros g' tt'; apply IH; lia)
                (get_possible_moves g) neg_inf None tt)
      as [[[max_score best] tt1] ->].
    simpl. eauto.
  - destruct (bool_decide _); [eauto|].
    destruct (chance_loop_total
                (λ grid_new tt, expectimax fuel grid_new (depth + 1) true
                                  max_depth tt)
                ltac:(intros g' tt'; apply IH; lia)
                g (Z.of_nat (length (empty_cells g))) (empty_cells g)
                (of_int 0) tt) as [[score tt1] ->].
    simpl. eauto.
Qed.

(** The direction is absent at leaves, at chance nodes and when there is no
    candidate move. *)
Lemma expectimax_nomemo_no_direction (max_depth : Z) (fuel : nat)
    (g : grid) (depth : Z) (player_turn : bool) (score : F)
    (dir : option direction) :
  expectimax_nomemo fuel g depth player_turn max_depth = Some (score, dir) →
  game_over g = true ∨ depth = max_depth ∨ get_possible_moves g = []
  ∨ player_turn = false →
  dir = None.
Proof.
  destruct fuel as [|fuel]; [discriminate|].
  cbn [expectimax_nomemo]. intros Hr Hcase.
  destruct ((depth =? max_depth) || game_over g) eqn:Hc; [congruence|].
  apply orb_false_elim in Hc. destruct Hc as [Hd Hgo].
  apply Z.eqb_neq in Hd.
  destruct player_turn.
  - destruct Hcase as [?|[?|[Hm|?]]]; try congruence.
    rewrite Hm in Hr. cbn in Hr. congruence.
  - destruct (bool_decide _); [congruence|].
    destruct (chance_loop_nomemo _ _ _ _ _); simpl in Hr; congruence.
Qed.
End search_facts.

(** ** Chance nodes *)

Lemma filter_none {A : Type} (P : A → Prop) `{∀ x, Decision (P x)}
    (l : list A) :
  Forall (λ x, ¬ P x) l → filter P l = [].
Proof.
  induction 1 as [|x l Hx _ IH]; [reflexivity|].
  rewrite filter_cons_False by exact Hx. exact IH.
Qed.

Lemma game_over_no_empty (g : grid) :
  wf_board g → game_over g = true → empty_cells g = [].
Proof.
  intros Hwf.
  destruct (wf_board_cells g Hwf)
    as (a1 & a2 & a3 & a4 & b1 & b2 & b3 & b4
        & c1 & c2 & c3 & c4 & d1 & d2 & d3 & d4 & ->).
  rewrite game_over_cells. intros (Hnz & _). destruct_and?.
  unfold empty_cells. apply filter_none.
  cbn [cells4 range4 mbind list_bind app mret list_ret].
  repeat apply Forall_cons_2; try apply Forall_nil_2; cbn [cell nth];
    assumption.
Qed.

(** ** The empty cells and the spawned boards, against their description *)

Lemma cells4_spec (r c : nat) : (r, c) ∈ cells4 ↔ (r < 4 ∧ c < 4)%nat.
Proof.
  unfold cells4, range4.
  cbn [mbind list_bind app mret list_ret].
  rewrite !elem_of_cons, elem_of_nil. split.
  - intros Hin. destruct_or?; simplify_eq; lia.
  - intros [Hr Hc].
    destruct r as [|[|[|[|r]]]]; try lia;
      destruct c as [|[|[|[|c]]]]; try lia; tauto.
Qed.

(** The cells listed by [empty_cells] are the zero cells of the board. *)
Lemma empty_cells_spec (g : grid) (r c : nat) :
  (r, c) ∈ empty_cells g ↔ (r < 4 ∧ c < 4)%nat ∧ cell g r c = 0.
Proof.
  unfold empty_cells. rewrite list_elem_of_filter, cells4_spec. tauto.
Qed.

Lemma zeros_in_row_filter (g : grid) (r : nat) (a b c d : Z) :
  nth r g [] = [a; b; c; d] →
  filter (λ '(r', c'), cell g r' c' = 0) [(r, 0); (r, 1); (r, 2); (r, 3)]%nat
  = zeros_in_row r 0 [a; b; c; d].
Proof.
  intros Hr.
  assert (Ha : cell g r 0 = a) by (unfold cell; rewrite Hr; reflexivity).
  assert (Hb : cell g r 1 = b) by (unfold cell; rewrite Hr; reflexivity).
  assert (Hc : cell g r 2 = c) by (unfold cell; rewrite Hr; reflexivity).
  assert (Hd : cell g r 3 = d) by (unfold cell; rewrite Hr; reflexivity).
  rewrite !filter_cons, filter_nil. cbn [zeros_in_row].
  repeat case_decide; simpl in *; solve [reflexivity | congruence].
Qed.

Lemma empty_cells_zero_positions (g : grid) :
  wf_board g → empty_cells g = zero_positions g.
Proof.
  intros Hwf.
  destruct (wf_board_cells g Hwf)
    as (a1 & a2 & a3 & a4 & b1 & b2 & b3 & b4
        & c1 & c2 & c3 & c4 & d1 & d2 & d3 & d4 & ->).
  unfold empty_cells, zero_positions. cbn [zeros_from].
  change cells4
    with ([(0, 0); (0, 1); (0, 2); (0, 3)] ++ [(1, 0); (1, 1); (1, 2); (1, 3)]
          ++ [(2, 0); (2, 1); (2, 2); (2, 3)]
          ++ [(3, 0); (3, 1); (3, 2); (3, 3)])%nat.
  rewrite !filter_app, app_nil_r.
  rewrite (zeros_in_row_filter _ 0 a1 a2 a3 a4) by reflexivity.
  rewrite (zeros_in_row_filter _ 1 b1 b2 b3 b4) by reflexivity.
  rewrite (zeros_in_row_filter _ 2 c1 c2 c3 c4) by reflexivity.
  rewrite (zeros_in_row_filter _ 3 d1 d2 d3 d4) by reflexivity.
  reflexivity.
Qed.

Lemma set_cell_with_tile (g : grid) (r c : nat) (v : Z) :
  wf_board g → (r < 4 ∧ c < 4)%nat → set_cell g r c v = with_tile g r c v.
Proof.
  intros Hwf [Hr Hc].
  destruct (wf_board_cells g Hwf)
    as (a1 & a2 & a3 & a4 & b1 & b2 & b3 & b4
        & c1 & c2 & c3 & c4 & d1 & d2 & d3 & d4 & ->).
  destruct r as [|[|[|[|r]]]]; try lia;
    destruct c as [|[|[|[|c]]]]; try lia; reflexivity.
Qed.

Lemma foldl_ext_in {A B : Type} (f1 f2 : A → B → A) (l : list B) :
  (∀ a x, x ∈ l → f1 a x = f2 a x) → ∀ a, foldl f1 a l = foldl f2 a l.
Proof.
  induction l as [|x l IH]; intros Hf a; cbn [foldl]; [reflexivity|].
  rewrite (Hf a x) by left. apply IH. intros a' x' Hin. apply Hf. right.
  exact Hin.
Qed.

Section chance_facts.
Context {F : Type} `{FloatOps F}.

(** The running sum of the chance loop, for any score arithmetic. *)
Lemma chance_loop_nomemo_sum (rec : grid → option (result F))
    (child : grid → F) :
  (∀ g, ∃ dir, rec g = Some (child g, dir)) →
  ∀ (g : grid) (total : Z) (cells : list (nat * nat)) (score : F),
    chance_loop_nomemo rec g total cells score
    = Some (foldl (λ sum '(r, c),
                fadd
                  (fadd sum
                     (fmul (fdiv (fdec 9 1) (of_int total))
                        (child (set_cell g r c 2))))
                  (fmul (fdiv (fdec 1 1) (of_int total))
                     (child (set_cell g r c 4))))
              score cells).
Proof.
  intros Hrec g total cells.
  induction cells as [|[r c] cells IH]; intros score;
    cbn [chance_loop_nomemo foldl]; [reflexivity|].
  unfold tile_values, probabilities. cbn [zip zip_with spawn_loop_nomemo].
  destruct (Hrec (set_cell g r c 2)) as [dir2 ->]. simpl.
  destruct (Hrec (set_cell g r c 4)) as [dir4 ->]. simpl.
  apply IH.
Qed.

(** Under exact arithmetic the sum as computed is the sum of the per-cell
    averages. *)
Lemma chance_sum_regroup (child : grid → F) (g : grid) (total : F)
    (cells : list (nat * nat)) :
  exact_arithmetic →
  ∀ score : F,
    foldl (λ sum '(r, c),
        fadd
          (fadd sum (fmul (fdiv (fdec 9 1) total) (child (with_tile g r c 2))))
          (fmul (fdiv (fdec 1 1) total) (child (with_tile g r c 4))))
      score cells
    = foldl (λ sum '(r, c),
          fadd sum
            (fmul (fdiv (of_int 1) total)
               (fadd (fmul (fdec 9 1) (child (with_tile g r c 2)))
                     (fmul (fdec 1 1) (child (with_tile g r c 4))))))
        score cells.
Proof.
  intros (Hassoc & Hdistr & Hdiv).
  induction cells as [|[r c] cells IH]; intros score;
    cbn [foldl]; [reflexivity|].
  rewrite IH. f_equal.
  rewrite Hassoc, Hdistr, <- !Hdiv. reflexivity.
Qed.

Lemma chance_value_regroup (child : grid → F) (g : grid) :
  exact_arithmetic → chance_value_computed child g = chance_value child g.
Proof.
  intros Hexact. unfold chance_value_computed, chance_value.
  destruct (bool_decide (zero_positions g = [])); [reflexivity|].
  apply chance_sum_regroup. exact Hexact.
Qed.

Lemma node_value_some (max_depth : Z) (fuel : nat) (g : grid) (depth : Z)
    (player_turn : bool) :
  depth ≤ max_depth → max_depth - depth < Z.of_nat fuel →
  ∃ dir, expectimax_nomemo fuel g depth player_turn max_depth
         = Some (node_value fuel g depth player_turn max_depth, dir).
Proof.
  intros Hd Hfuel. unfold node_value.
  destruct (expectimax_nomemo_total max_depth fuel g depth player_turn
              Hd Hfuel) as [[score dir] ->].
  eauto.
Qed.

Lemma chance_node_nomemo (max_depth : Z) (fuel : nat) (g : grid) (depth : Z) :
  wf_board g →
  depth < max_depth → max_depth - depth ≤ Z.of_nat fuel →
  expectimax_nomemo (S fuel) g depth false max_depth
  = Some (chance_value_computed
            (λ child, node_value fuel child (depth + 1) true max_depth) g,
          None).
Proof.
  intros Hwf Hd Hfuel. cbn [expectimax_nomemo]. unfold chance_value_computed.
  rewrite <- (empty_cells_zero_positions g Hwf).
  destruct (Z.eqb_spec depth max_depth) as [?|_]; [lia|]. cbn [orb].
  destruct (game_over g) eqn:Hgo.
  - rewrite (game_over_no_empty g Hwf Hgo). reflexivity.
  - destruct (bool_decide (empty_cells g = [])); [reflexivity|].
    rewrite (chance_loop_nomemo_sum _
               (λ child, node_value fuel child (depth + 1) true max_depth)).
    + cbn [mbind option_bind]. f_equal. f_equal.
      apply foldl_ext_in. intros sum [r c] Hin.
      apply empty_cells_spec in Hin. destruct Hin as [Hrc _].
      rewrite !(set_cell_with_tile g r c _ Hwf Hrc). reflexivity.
    + intros g'. apply node_value_some; lia.
Qed.
End chance_facts.

(** ** The model of the score arithmetic *)

Lemma xreal_exact : @exact_arithmetic xreal xreal_ops.
Proof.
  split; [|split].
  - intros [|a] [|b] [|c]; simpl; try reflexivity. f_equal. ring.
  - intros [|a] [|b] [|c]; simpl; try reflexivity. f_equal. ring.
  - intros [|p] [|n] [|c]; simpl; try reflexivity. f_equal.
    unfold Rdiv. ring.
Qed.

(** * The claims *)

(** C1.  The claim says that [move] agrees with the reference implementation
    in all four directions.  It does for 'left' and 'right'
    ([move_reference]); for 'up' it does not: on the board whose only tile is
    a 2 in the top-left corner the reference leaves the board as it is, while
    [move] carries the tile to the bottom-left corner. *)
Theorem move_up_slides_down :
  let b := [[2; 0; 0; 0]; [0; 0; 0; 0]; [0; 0; 0; 0]; [0; 0; 0; 0]] in
  move b Up = [[0; 0; 0; 0]; [0; 0; 0; 0]; [0; 0; 0; 0]; [2; 0; 0; 0]]
  ∧ move_ref b Up = b
  ∧ move b Up ≠ move_ref b Up
  ∧ move b Up = move_ref b Down.
Proof. vm_compute. repeat split; congruence. Qed.

(** C2, as stated, fails on the empty board: no cell of it is a tile, so
    [game_over] answers false, and yet no move changes it, so
    [get_possible_moves] is empty. *)
Lemma game_over_empty_board :
  let b := [[0; 0; 0; 0]; [0; 0; 0; 0]; [0; 0; 0; 0]; [0; 0; 0; 0]] in
  wf_board b ∧ tiles_only b
  ∧ ¬ (game_over b = true ↔ get_possible_moves b = []).
Proof.
  cbv zeta. split; [apply wf_board_explicit|]. split.
  - repeat constructor.
  - intros [_ Hm]. specialize (Hm eq_refl). vm_compute in Hm. discriminate.
Qed.

(** C2, amended.  For every 4x4 board with at least one non-zero cell,
    [game_over] returns true if and only if [get_possible_moves] returns the
    empty list. *)
Theorem game_over_iff_no_moves (g : grid) :
  wf_board g → has_nonzero g = true →
  (game_over g = true ↔ get_possible_moves g = []).
Proof. apply game_over_no_moves. Qed.

Lemma game_over_iff_no_moves_witness :
  let b := [[2; 4; 2; 4]; [4; 2; 4; 2]; [2; 4; 2; 4]; [4; 2; 4; 2]] in
  game_over b = true ↔ get_possible_moves b = [].
Proof.
  apply (game_over_iff_no_moves
           [[2; 4; 2; 4]; [4; 2; 4; 2]; [2; 4; 2; 4]; [4; 2; 4; 2]]).
  - apply wf_board_explicit.
  - reflexivity.
Defined.

(** C3.  On every row of four values [merge_row] is compaction of the
    non-zero tiles in their order, one pass in which every tile takes part in
    at most one merge, and padding with zeros to length 4; [2,2,2,2] becomes
    [4,4,0,0], not [8,0,0,0], and [4,2,2,4] becomes [4,4,4,0]. *)
Theorem merge_row_single_pass :
  (∀ a b c d : Z,
      merge_row [a; b; c; d] = pad4 (merge_pass (compact [a; b; c; d]))
      ∧ merged_once (compact [a; b; c; d]) (merge_pass (compact [a; b; c; d]))
      ∧ length (merge_row [a; b; c; d]) = 4%nat)
  ∧ merge_row [2; 2; 2; 2] = [4; 4; 0; 0]
  ∧ merge_row [2; 2; 2; 2] ≠ [8; 0; 0; 0]
  ∧ merge_row [4; 2; 2; 4] = [4; 4; 4; 0].
Proof.
  split; [|vm_compute; repeat split; congruence].
  intros a b c d. split; [|split].
  - apply (merge_row_is_ref [a; b; c; d]). simpl. lia.
  - apply merge_pass_merged_once.
  - apply merge_row_length. simpl. lia.
Qed.

(** C8.  Boards whose cells are zero or a power of two at least 2 stay so
    under [move] in every direction and under [add_random_tile] for every
    random outcome, and [initialize_game] produces such a board. *)
Theorem tiles_only_preserved :
  (∀ (g : grid) (d : direction),
      wf_board g → tiles_only g → tiles_only (move g d))
  ∧ (∀ (g : grid) (pick : nat) (two : bool),
        tiles_only g → tiles_only (add_random_tile g pick two))
  ∧ (∀ (pick1 : nat) (two1 : bool) (pick2 : nat) (two2 : bool),
        tiles_only (initialize_game pick1 two1 pick2 two2)).
Proof.
  split; [|split].
  - intros g d. apply move_tiles.
  - intros g pick two. apply add_random_tile_tiles.
  - apply initialize_game_tiles.
Qed.

Lemma tiles_only_preserved_witness :
  let b := [[2; 2; 0; 0]; [0; 4; 0; 0]; [0; 4; 8; 0]; [0; 0; 0; 16]] in
  tiles_only (move b Up) ∧ tiles_only (add_random_tile b 3 false).
Proof.
  assert (Hb : tiles_only
                 [[2; 2; 0; 0]; [0; 4; 0; 0]; [0; 4; 8; 0]; [0; 0; 0; 16]]).
  { unfold tiles_only.
    repeat (apply Forall_cons_2 || apply Forall_nil_2);
      solve [ left; reflexivity
            | right; exists 1; split; [lia | reflexivity]
            | right; exists 2; split; [lia | reflexivity]
            | right; exists 3; split; [lia | reflexivity]
            | right; exists 4; split; [lia | reflexivity] ]. }
  split.
  - apply (proj1 tiles_only_preserved); [apply wf_board_explicit | exact Hb].
  - apply (proj1 (proj2 tiles_only_preserved)). exact Hb.
Defined.

(** C10.  On every 4x4 board and for every direction the sum of the sixteen
    cells of [move g d] is the sum of the sixteen cells of [g]. *)
Theorem move_preserves_sum (g : grid) (d : direction) :
  wf_board g → grid_sum (move g d) = grid_sum g.
Proof. apply move_sum. Qed.

Lemma move_preserves_sum_witness :
  grid_sum (move [[2; 2; 0; 0]; [0; 4; 0; 0]; [0; 4; 8; 0]; [0; 0; 0; 16]] Down)
  = grid_sum [[2; 2; 0; 0]; [0; 4; 0; 0]; [0; 4; 8; 0]; [0; 0; 0; 16]].
Proof. apply move_preserves_sum. apply wf_board_explicit. Defined.

(** C4, as stated, fails in the arithmetic of the program.  On the board
    below, whose two empty cells are the corners of the last row, the four
    children have the scores -12.5, -13.7, -11.8 and -10.6.  [expectimax]
    adds [(0.9/2) * -12.5], [(0.1/2) * -13.7], [(0.9/2) * -11.8] and
    [(0.1/2) * -10.6] one after the other and returns -12.15
    ([-0x1.84ccccccccccdp+3]).  The two terms
    [(1/2) * (0.9 * child2 + 0.1 * child4)] of the claim add up, in either
    order, to -12.150000000000002 ([-0x1.84ccccccccccep+3]), the next
    binary64 number below. *)
Lemma chance_node_rounding :
  let b := [[2; 4; 8; 4]; [4; 16; 4; 2]; [2; 4; 32; 4]; [0; 2; 8; 0]] in
  let child := λ g', @node_value float float_ops 1 g' (0 + 1) true 1 in
  let term := λ r c : nat,
    fmul (fdiv (of_int 1) (of_int 2))
      (fadd (fmul (fdec 9 1) (child (with_tile b r c 2)))
            (fmul (fdec 1 1) (child (with_tile b r c 4)))) in
  let computed : float := (-0x1.84ccccccccccdp+3)%float in
  let claimed : float := (-0x1.84ccccccccccep+3)%float in
  wf_board b ∧ 0 < 1
  ∧ zero_positions b = [(3, 0); (3, 3)]%nat
  ∧ child (with_tile b 3 0 2) = (-0x1.9p+3)%float
  ∧ child (with_tile b 3 0 4) = (-0x1.b666666666666p+3)%float
  ∧ child (with_tile b 3 3 2) = (-0x1.799999999999ap+3)%float
  ∧ child (with_tile b 3 3 4) = (-0x1.5333333333333p+3)%float
  ∧ option_map fst (expectimax 2 b 0 false 1 ∅) = Some (computed, None)
  ∧ chance_value child b = claimed
  ∧ fadd (term 3 0)%nat (term 3 3)%nat = claimed
  ∧ fadd (term 3 3)%nat (term 3 0)%nat = claimed
  ∧ PrimFloat.ltb claimed computed = true
  ∧ option_map fst (expectimax 2 b 0 false 1 ∅)
    ≠ Some (chance_value child b, None).
Proof.
  cbv zeta. split; [apply wf_board_explicit|]. split; [lia|].
  repeat (split; [vm_compute; reflexivity|]).
  intros E.
  apply (f_equal
           (λ o : option (result float),
              match o with
              | Some (x, _) => PrimFloat.ltb x (-0x1.84ccccccccccdp+3)%float
              | None => false
              end)) in E.
  vm_compute in E. discriminate.
Qed.

(** C4, amended.  For every 4x4 board and every depth below [max_depth], the
    chance node computed by [expectimax] from an empty table has no
    direction; its value is the heuristic score when no cell is empty, and
    else the running sum, started at 0 and taken over the empty cells row by
    row, to which every cell adds first [0.9/|cells|] times the value of the
    maximizing child with a 2 in that cell and then [0.1/|cells|] times the
    value of the maximizing child with a 4 in it, the children evaluated at
    [depth + 1].  Under exact arithmetic that sum is the sum over the empty
    cells of [1/|cells|] times ([0.9] times the child with a 2 plus [0.1]
    times the child with a 4). *)
Theorem chance_node_value {F : Type} `{FloatOps F} (g : grid)
    (depth max_depth : Z) (fuel : nat) :
  wf_board g →
  depth < max_depth → max_depth - depth ≤ Z.of_nat fuel →
  let child := λ g', node_value fuel g' (depth + 1) true max_depth in
  (∃ tt' : gmap key (result F),
      expectimax (S fuel) g depth false max_depth ∅
      = Some ((chance_value_computed child g, None), tt'))
  ∧ (exact_arithmetic →
     chance_value_computed child g = chance_value child g)
  ∧ (∀ g' : grid,
        ∃ dir, expectimax_nomemo fuel g' (depth + 1) true max_depth
               = Some (child g', dir)).
Proof.
  intros Hwf Hd Hfuel child. split; [|split].
  - destruct (expectimax_agrees max_depth (S fuel) depth false
                ltac:(lia) ltac:(lia) g ∅ (table_sound_empty max_depth))
      as (r & tt' & Hm & Hn & _).
    rewrite (chance_node_nomemo max_depth fuel g depth Hwf Hd Hfuel) in Hn.
    inversion Hn; subst. eauto.
  - apply chance_value_regroup.
  - intros g'. apply node_value_some; lia.
Qed.

Lemma chance_node_value_witness :
  let b := [[2; 4; 2; 4]; [4; 2; 4; 2]; [2; 4; 2; 4]; [4; 2; 0; 0]] in
  let child := λ g', @node_value xreal xreal_ops 1 g' (0 + 1) true 1 in
  (∃ tt' : gmap key (result xreal),
      expectimax 2 b 0 false 1 ∅
      = Some ((chance_value_computed child b, None), tt'))
  ∧ chance_value_computed child b = chance_value child b.
Proof.
  destruct (@chance_node_value xreal xreal_ops
              [[2; 4; 2; 4]; [4; 2; 4; 2]; [2; 4; 2; 4]; [4; 2; 0; 0]]
              0 1 1%nat (wf_board_explicit 2 4 2 4 4 2 4 2 2 4 2 4 4 2 0 0)
              ltac:(lia) ltac:(simpl; lia))
    as (Hvalue & Hexact & _).
  split; [exact Hvalue | exact (Hexact xreal_exact)].
Defined.

(** C5.  Started from the empty table at a depth not above [max_depth],
    [expectimax] returns exactly the pair that the same recursion without
    the table lookup and store returns, and every entry of the table it
    leaves is the result of that recursion for the very key it is stored
    under. *)
Theorem memoization_transparent {F : Type} `{FloatOps F} (g : grid)
    (player_turn : bool) (depth max_depth : Z) (fuel : nat) :
  depth ≤ max_depth → max_depth - depth < Z.of_nat fuel →
  ∃ (r : result F) (tt' : gmap key (result F)),
    expectimax fuel g depth player_turn max_depth ∅ = Some (r, tt')
    ∧ expectimax_nomemo fuel g depth player_turn max_depth = Some r
    ∧ table_sound max_depth tt'.
Proof.
  intros Hd Hfuel.
  exact (expectimax_agrees max_depth fuel depth player_turn Hd Hfuel g ∅
           (table_sound_empty max_depth)).
Qed.

Lemma memoization_transparent_witness :
  let b := [[2; 2; 0; 0]; [0; 4; 0; 0]; [0; 4; 8; 0]; [0; 0; 0; 16]] in
  ∃ (r : result xreal) (tt' : gmap key (result xreal)),
    expectimax 4 b 0 true 3 ∅ = Some (r, tt')
    ∧ expectimax_nomemo 4 b 0 true 3 = Some r
    ∧ table_sound 3 tt'.
Proof.
  apply (@memoization_transparent xreal xreal_ops
           [[2; 2; 0; 0]; [0; 4; 0; 0]; [0; 4; 8; 0]; [0; 0; 0; 16]]
           true 0 3 4%nat).
  - lia.
  - simpl. lia.
Defined.

(** C6.  On a terminal board the top-level call from an empty table returns
    the heuristic score and no direction, whatever [max_depth] is; more
    generally the direction is absent whenever the board is terminal, the
    depth limit is reached, or there is no candidate move. *)
Theorem terminal_no_direction {F : Type} `{FloatOps F} :
  (∀ (g : grid) (max_depth : Z) (fuel : nat),
      0 ≤ max_depth → game_over g = true →
      ∃ tt' : gmap key (result F),
        expectimax (S fuel) g 0 true max_depth ∅
        = Some ((combined_heuristic g, None), tt'))
  ∧ (∀ (g : grid) (depth : Z) (player_turn : bool) (max_depth : Z)
       (fuel : nat),
        depth ≤ max_depth → max_depth - depth < Z.of_nat fuel →
        game_over g = true ∨ depth = max_depth ∨ get_possible_moves g = [] →
        ∃ (score : F) (tt' : gmap key (result F)),
          expectimax fuel g depth player_turn max_depth ∅
          = Some ((score, None), tt')).
Proof.
  split.
  - intros g max_depth fuel _ Hgo. cbn [expectimax].
    rewrite lookup_empty, Hgo, orb_true_r. eauto.
  - intros g depth player_turn max_depth fuel Hd Hfuel Hcase.
    destruct (expectimax_agrees max_depth fuel depth player_turn Hd Hfuel
                g ∅ (table_sound_empty max_depth))
      as ([score dir] & tt' & Hm & Hn & _).
    rewrite (expectimax_nomemo_no_direction max_depth fuel g depth
               player_turn score dir Hn) in Hm by tauto.
    eauto.
Qed.

Lemma terminal_no_direction_witness :
  let b := [[2; 4; 2; 4]; [4; 2; 4; 2]; [2; 4; 2; 4]; [4; 2; 4; 2]] in
  ∃ tt' : gmap key (result xreal),
    expectimax 1 b 0 true 3 ∅ = Some ((combined_heuristic b, None), tt').
Proof.
  apply (proj1 (@terminal_no_direction xreal xreal_ops)
           [[2; 4; 2; 4]; [4; 2; 4; 2]; [2; 4; 2; 4]; [4; 2; 4; 2]] 3 0%nat).
  - lia.
  - reflexivity.
Defined.

(** C7.  On every 4x4 board of non-negative cells [combined_heuristic] is
    2.7 times the number of zero cells, plus 1.0 times the base-2 logarithm
    of the largest cell (0 if every cell is zero), plus 0.1 times
    [smoothness_heuristic], plus 1.0 times [monotonicity_heuristic]. *)
Theorem combined_heuristic_formula {F : Type} `{FloatOps F} (g : grid) :
  wf_board g → Forall (Forall (λ v, 0 ≤ v)) g →
  combined_heuristic g
  = fadd (fadd (fadd (fmul (fdec 27 1) (of_int (zero_cells g)))
                     (fmul (fdec 10 1)
                        (if bool_decide (Forall (Forall (λ v, v = 0)) g)
                         then of_int 0 else log2 (largest_tile g))))
               (fmul (fdec 1 1) (smoothness_heuristic g)))
         (fmul (fdec 10 1) (monotonicity_heuristic g)).
Proof. intros _ Hg. apply (combined_heuristic_score g Hg). Qed.

Lemma combined_heuristic_formula_witness :
  let b := [[2; 2; 0; 0]; [0; 4; 0; 0]; [0; 4; 8; 0]; [0; 0; 0; 16]] in
  @combined_heuristic xreal xreal_ops b = combined_score b.
Proof.
  apply (@combined_heuristic_formula xreal xreal_ops
           [[2; 2; 0; 0]; [0; 4; 0; 0]; [0; 4; 8; 0]; [0; 0; 0; 16]]).
  - apply wf_board_explicit.
  - repeat (apply Forall_cons_2 || apply Forall_nil_2); lia.
Defined.

(** C9.  For every board, node kind, table and depth between 0 and
    [max_depth], [expectimax] returns a result as soon as it is granted more
    than [max_depth - depth] nested calls: every recursive call is made at
    [depth + 1] and the recursion stops at [max_depth]. *)
Theorem expectimax_terminates {F : Type} `{FloatOps F} (g : grid)
    (player_turn : bool) (depth max_depth : Z) (tt : gmap key (result F))
    (fuel : nat) :
  0 ≤ depth ≤ max_depth → max_depth - depth < Z.of_nat fuel →
  is_Some (expectimax fuel g depth player_turn max_depth tt)
  ∧ is_Some (expectimax_nomemo fuel g depth player_turn max_depth).
Proof.
  intros [_ Hd] Hfuel. split.
  - apply expectimax_total; assumption.
  - apply expectimax_nomemo_total; assumption.
Qed.

Lemma expectimax_terminates_witness :
  let b := [[2; 2; 0; 0]; [0; 4; 0; 0]; [0; 4; 8; 0]; [0; 0; 0; 16]] in
  is_Some (expectimax 4 b 0 true 3 (∅ : gmap key (result xreal)))
  ∧ is_Some (@expectimax_nomemo xreal xreal_ops 4 b 0 true 3).
Proof.
  apply (@expectimax_terminates xreal xreal_ops
           [[2; 2; 0; 0]; [0; 4; 0; 0]; [0; 4; 8; 0]; [0; 0; 0; 16]]
           true 0 3 ∅ 4%nat).
  - lia.
  - simpl. lia.
Defined.

(** * Further properties *)

Lemma rotate_once_wf (g : grid) : wf_board g → wf_board (rotate_once g).
Proof.
  intros Hwf.
  destruct (wf_board_cells g Hwf)
    as (a1 & a2 & a3 & a4 & b1 & b2 & b3 & b4
        & c1 & c2 & c3 & c4 & d1 & d2 & d3 & d4 & ->).
  rewrite rotate_once_cells. apply wf_board_explicit.
Qed.

Lemma rotate_multiple_of_4 (g : grid) (k : Z) : rotate g (4 * k) = g.
Proof. unfold rotate. rewrite Z.mul_comm, Z_mod_mult. reflexivity. Qed.

Lemma rotate_inverse (g : grid) :
  wf_board g →
  rotate (rotate g 1) (-1) = g ∧ rotate (rotate g (-1)) 1 = g.
Proof.
  intros Hwf.
  destruct (wf_board_cells g Hwf)
    as (a1 & a2 & a3 & a4 & b1 & b2 & b3 & b4
        & c1 & c2 & c3 & c4 & d1 & d2 & d3 & d4 & ->).
  split; reflexivity.
Qed.

Lemma rotate_add (g : grid) (j k : Z) :
  wf_board g → rotate (rotate g j) k = rotate g (j + k).
Proof.
  intros Hwf.
  destruct (wf_board_cells g Hwf)
    as (a1 & a2 & a3 & a4 & b1 & b2 & b3 & b4
        & c1 & c2 & c3 & c4 & d1 & d2 & d3 & d4 & ->).
  unfold rotate.
  rewrite <- (Zplus_mod_idemp_l j), <- (Zplus_mod_idemp_r k (j mod 4)).
  pose proof (Z.mod_pos_bound j 4 ltac:(lia)) as Hj.
  pose proof (Z.mod_pos_bound k 4 ltac:(lia)) as Hk.
  assert (Ej : j mod 4 = 0 ∨ j mod 4 = 1 ∨ j mod 4 = 2 ∨ j mod 4 = 3) by lia.
  assert (Ek : k mod 4 = 0 ∨ k mod 4 = 1 ∨ k mod 4 = 2 ∨ k mod 4 = 3) by lia.
  destruct Ej as [-> | [-> | [-> | ->]]], Ek as [-> | [-> | [-> | ->]]];
    reflexivity.
Qed.

Lemma reverse_involutive (g : grid) : reverse (reverse g) = g.
Proof.
  unfold reverse. rewrite map_map.
  induction g as [|r g IH]; [reflexivity|].
  cbn [map]. rewrite rev_involutive, IH. reflexivity.
Qed.

Lemma move_wf (g : grid) (d : direction) : wf_board g → wf_board (move g d).
Proof.
  intros Hwf.
  destruct (wf_board_cells g Hwf)
    as (a1 & a2 & a3 & a4 & b1 & b2 & b3 & b4
        & c1 & c2 & c3 & c4 & d1 & d2 & d3 & d4 & ->).
  destruct (move_lines a1 a2 a3 a4 b1 b2 b3 b4 c1 c2 c3 c4 d1 d2 d3 d4)
    as (HL & HR & HD & HU).
  cbv zeta in HL, HR, HD, HU.
  destruct d; [rewrite HU | rewrite HD | rewrite HL | rewrite HR];
    cbn [map columns range4 cell nth rev app].
  all: repeat match goal with
         | |- context [merge_row ?l] =>
             let E := fresh "E" in
             destruct (merge_row_4 l eq_refl) as (? & ? & ? & ? & E);
             rewrite ?E
         end.
  all: apply wf_board_explicit.
Qed.

(** ** Zeros of a row *)

Lemma merged_once_nonzero (tiles out : list Z) :
  merged_once tiles out →
  Forall (λ v, v ≠ 0) tiles → Forall (λ v, v ≠ 0) out.
Proof.
  induction 1 as [|x tiles out _ IH|x tiles out _ IH]; intros Ht.
  - constructor.
  - inversion Ht; subst. constructor; auto.
  - inversion Ht as [|? ? Hx Ht']; subst. inversion Ht'; subst.
    constructor; [lia | auto].
Qed.

(** After the merge the tiles come first and the zeros last. *)
Lemma merge_row_shape (r : row) :
  ∃ (tiles : list Z) (k : nat),
    merge_row r = tiles ++ replicate k 0
    ∧ Forall (λ v, v ≠ 0) tiles
    ∧ (length tiles ≤ length (compact r))%nat
    ∧ (length r ≤ 4 → length tiles + k = 4)%nat.
Proof.
  exists (merge_pass (compact r)),
    (length (compact r) - length (merge_pass (compact r))
     + (4 - length (compact r)))%nat.
  pose proof (merge_pass_length (compact r)) as Hl.
  assert (Hc : (length (compact r) ≤ length r)%nat) by apply length_filter.
  split; [|split; [|split]].
  - rewrite merge_row_pass, replicate_add. reflexivity.
  - apply (merged_once_nonzero _ _ (merge_pass_merged_once (compact r))).
    apply compact_nonzero.
  - exact Hl.
  - lia.
Qed.

Lemma count0_cons (x : Z) (l : list Z) :
  count0 (x :: l) = (if decide (x = 0) then 1 else 0) + count0 l.
Proof.
  unfold count0. rewrite filter_cons.
  destruct (decide (x = 0)); cbn [length]; lia.
Qed.

Lemma count0_app (l1 l2 : list Z) : count0 (l1 ++ l2) = count0 l1 + count0 l2.
Proof. unfold count0. rewrite filter_app, length_app. lia. Qed.

Lemma count0_zeros (k : nat) : count0 (replicate k 0) = Z.of_nat k.
Proof.
  induction k as [|k IH]; [reflexivity|].
  cbn [replicate]. rewrite count0_cons, IH.
  destruct (decide (0 = 0)); [lia | congruence].
Qed.

Lemma count0_nonzero (l : list Z) : Forall (λ v, v ≠ 0) l → count0 l = 0.
Proof.
  induction 1 as [|x l Hx _ IH]; [reflexivity|].
  rewrite count0_cons, IH. destruct (decide (x = 0)); [contradiction | lia].
Qed.

Lemma count0_rev (l : list Z) : count0 (rev l) = count0 l.
Proof.
  induction l as [|x l IH]; [reflexivity|].
  cbn [rev]. rewrite count0_app, IH, !count0_cons.
  change (count0 []) with 0. lia.
Qed.

Lemma count0_compact (r : row) :
  count0 r + Z.of_nat (length (compact r)) = Z.of_nat (length r).
Proof.
  unfold compact. induction r as [|x r IH]; [reflexivity|].
  rewrite count0_cons, filter_cons.
  destruct (decide (x = 0)), (decide (x ≠ 0)); try contradiction;
    cbn [length]; lia.
Qed.

Lemma merge_row_count0 (r : row) :
  length r = 4%nat →
  count0 (merge_row r)
  = 4 - Z.of_nat (length (merge_pass (compact r))).
Proof.
  intros Hr. destruct (merge_row_shape r) as (tiles & k & E & Hnz & Hl & Hk).
  pose proof (merge_row_pass r) as Hp. rewrite Hp.
  rewrite !count0_app, !count0_zeros.
  rewrite (count0_nonzero (merge_pass (compact r))).
  - pose proof (merge_pass_length (compact r)).
    assert (length (compact r) ≤ length r)%nat by apply length_filter.
    lia.
  - apply (merged_once_nonzero _ _ (merge_pass_merged_once (compact r))).
    apply compact_nonzero.
Qed.

(** A merge never removes an empty cell from a line. *)
Lemma merge_row_zeros_grow (r : row) :
  length r = 4%nat → count0 r ≤ count0 (merge_row r).
Proof.
  intros Hr. rewrite (merge_row_count0 r Hr).
  pose proof (count0_compact r). pose proof (merge_pass_length (compact r)).
  lia.
Qed.

Lemma merge_pass_cons2 (x y : Z) (rest : list Z) :
  merge_pass (x :: y :: rest)
  = if x =? y then 2 * x :: merge_pass rest else x :: merge_pass (y :: rest).
Proof. reflexivity. Qed.

Lemma merge_pass_same_length (tiles : list Z) :
  length (merge_pass tiles) = length tiles → merge_pass tiles = tiles.
Proof.
  induction tiles as [tiles IH] using (induction_ltof1 _ (@length Z)).
  unfold ltof in IH.
  destruct tiles as [|x [|y rest]]; [reflexivity..|].
  rewrite merge_pass_cons2. destruct (x =? y).
  - cbn [length]. pose proof (merge_pass_length rest). lia.
  - cbn [length]. intros Hl. f_equal. apply IH; [simpl; lia|].
    cbn [length]. lia.
Qed.

Lemma compact_same_length (r : row) :
  length (compact r) = length r → compact r = r.
Proof.
  unfold compact. induction r as [|x r IH]; [reflexivity|].
  rewrite filter_cons. destruct (decide (x ≠ 0)); cbn [length]; intros Hl.
  - f_equal. apply IH. lia.
  - pose proof (length_filter (λ tile, tile ≠ 0) r). lia.
Qed.

(** A line that the merge changes has an empty cell afterwards. *)
Lemma merge_row_changed_zero (r : row) :
  length r = 4%nat → merge_row r ≠ r → 1 ≤ count0 (merge_row r).
Proof.
  intros Hr Hne. rewrite (merge_row_count0 r Hr).
  pose proof (merge_pass_length (compact r)) as Hl.
  assert (Hc : (length (compact r) ≤ length r)%nat) by apply length_filter.
  destruct (decide (length (merge_pass (compact r)) = 4%nat)) as [E|]; [|lia].
  exfalso. apply Hne.
  assert (Ec : compact r = r) by (apply compact_same_length; lia).
  rewrite merge_row_pass, Ec in *.
  rewrite (merge_pass_same_length r) by lia.
  rewrite Hr. cbn [Nat.sub replicate]. rewrite !app_nil_r. reflexivity.
Qed.

(** ** Zeros of a board *)


Lemma iz_range (x : Z) : 0 ≤ iz x ≤ 1.
Proof. unfold iz. destruct (decide (x = 0)); lia. Qed.

Lemma iz_zero (x : Z) : x = 0 → iz x = 1.
Proof. intros ->. reflexivity. Qed.

Lemma iz_nonzero (x : Z) : x ≠ 0 → iz x = 0.
Proof. intros Hx. unfold iz. destruct (decide (x = 0)); [contradiction | reflexivity]. Qed.

Lemma count0_4 (a b c d : Z) : count0 [a; b; c; d] = iz a + iz b + iz c + iz d.
Proof. rewrite !count0_cons. change (count0 []) with 0. unfold iz. lia. Qed.

Lemma zero_cells_cons (r : row) (g : grid) :
  zero_cells (r :: g) = count0 r + zero_cells g.
Proof.
  unfold zero_cells, count0. cbn [concat]. rewrite filter_app, length_app. lia.
Qed.

Lemma zero_cells_explicit (r1 r2 r3 r4 : row) :
  zero_cells [r1; r2; r3; r4] = count0 r1 + count0 r2 + count0 r3 + count0 r4.
Proof. rewrite !zero_cells_cons. change (zero_cells []) with 0. lia. Qed.

Ltac zero_line l :=
  let x := fresh "x" in let y := fresh "y" in
  let z := fresh "z" in let w := fresh "w" in
  let E := fresh "E" in let Hg := fresh "Hg" in let Hc := fresh "Hc" in
  pose proof (merge_row_zeros_grow l eq_refl) as Hg;
  assert (Hc : merge_row l = l ∨ 1 ≤ count0 (merge_row l))
    by (destruct (decide (merge_row l = l));
        [left; assumption | right; apply merge_row_changed_zero; auto]);
  destruct (merge_row_4 l eq_refl) as (x & y & z & w & E);
  rewrite E in Hg, Hc; rewrite ?E;
  pose proof (iz_range x); pose proof (iz_range y);
  pose proof (iz_range z); pose proof (iz_range w).

Ltac zero_lines :=
  repeat match goal with
         | |- context [merge_row ?l] => zero_line l
         end.

Lemma move_zero_cells (g : grid) (d : direction) :
  wf_board g →
  zero_cells g ≤ zero_cells (move g d)
  ∧ (move g d ≠ g → 1 ≤ zero_cells (move g d)).
Proof.
  intros Hwf.
  destruct (wf_board_cells g Hwf)
    as (a1 & a2 & a3 & a4 & b1 & b2 & b3 & b4
        & c1 & c2 & c3 & c4 & d1 & d2 & d3 & d4 & ->).
  destruct (move_lines a1 a2 a3 a4 b1 b2 b3 b4 c1 c2 c3 c4 d1 d2 d3 d4)
    as (HL & HR & HD & HU).
  cbv zeta in HL, HR, HD, HU.
  destruct d; [rewrite HU | rewrite HD | rewrite HL | rewrite HR];
    clear HL HR HD HU Hwf;
    cbn [map columns range4 cell nth rev app]; zero_lines;
    cbn [map columns range4 cell nth rev app];
    rewrite ?zero_cells_explicit, ?count0_4 in *.
  all: split; [lia|]; intros Hne.
  all: repeat match goal with
         | H : _ = _ ∨ _ |- _ => destruct H as [H|H]; [simplify_eq|]
         end; try lia; congruence.
Qed.

(** ** Empty cells and spawning *)

Lemma nth_insert_ne {A : Type} (l : list A) (i j : nat) (x d : A) :
  i ≠ j → nth j (<[i := x]> l) d = nth j l d.
Proof. intros Hne. rewrite !nth_lookup, list_lookup_insert_ne by exact Hne. reflexivity. Qed.

Lemma nth_insert_eq {A : Type} (l : list A) (i : nat) (x d : A) :
  (i < length l)%nat → nth i (<[i := x]> l) d = x.
Proof. intros Hi. rewrite nth_lookup, list_lookup_insert_eq by exact Hi. reflexivity. Qed.

Lemma set_cell_other (g : grid) (r c : nat) (v : Z) (r' c' : nat) :
  (r', c') ≠ (r, c) → cell (set_cell g r c v) r' c' = cell g r' c'.
Proof.
  intros Hne. unfold cell, set_cell.
  destruct (decide (r = r')) as [<-|Hr].
  - destruct (decide (r < length g)%nat) as [Hlt|Hge].
    + rewrite nth_insert_eq by exact Hlt.
      apply nth_insert_ne. congruence.
    + rewrite list_insert_ge by lia. reflexivity.
  - rewrite nth_insert_ne by exact Hr. reflexivity.
Qed.

Lemma length_filter_map {A B : Type} (f : A → B) (P : B → Prop)
    (Q : A → Prop) `{∀ y, Decision (P y)} `{∀ x, Decision (Q x)}
    (l : list A) :
  (∀ x, P (f x) ↔ Q x) →
  length (filter P (map f l)) = length (filter Q l).
Proof.
  intros HPQ. induction l as [|x l IH]; [reflexivity|].
  cbn [map]. rewrite !filter_cons.
  destruct (decide (P (f x))) as [HP|HP], (decide (Q x)) as [HQ|HQ];
    cbn [length]; rewrite ?IH; try reflexivity;
    exfalso; apply HPQ in HP || apply HPQ in HQ; contradiction.
Qed.

Lemma zero_cells_empty_cells (g : grid) :
  wf_board g → zero_cells g = Z.of_nat (length (empty_cells g)).
Proof.
  intros Hwf.
  destruct (wf_board_cells g Hwf)
    as (a1 & a2 & a3 & a4 & b1 & b2 & b3 & b4
        & c1 & c2 & c3 & c4 & d1 & d2 & d3 & d4 & ->).
  unfold zero_cells, empty_cells. f_equal.
  set (g := [[a1; a2; a3; a4]; [b1; b2; b3; b4];
             [c1; c2; c3; c4]; [d1; d2; d3; d4]]).
  change (concat g) with (map (λ '(r, c), cell g r c) cells4).
  apply length_filter_map. intros [r c]. reflexivity.
Qed.

Lemma set_cell_empty (g : grid) (r c : nat) (v : Z) :
  wf_board g → (r < 4 ∧ c < 4)%nat → cell g r c = 0 → v ≠ 0 →
  wf_board (set_cell g r c v)
  ∧ cell (set_cell g r c v) r c = v
  ∧ zero_cells (set_cell g r c v) = zero_cells g - 1
  ∧ grid_sum (set_cell g r c v) = grid_sum g + v.
Proof.
  intros Hwf [Hr Hc] Hcell Hv.
  destruct (wf_board_cells g Hwf)
    as (a1 & a2 & a3 & a4 & b1 & b2 & b3 & b4
        & c1 & c2 & c3 & c4 & d1 & d2 & d3 & d4 & ->).
  destruct r as [|[|[|[|r]]]]; try lia;
    destruct c as [|[|[|[|c]]]]; try lia;
    cbn [cell nth] in Hcell; subst;
    cbn [set_cell insert list_insert nth cell];
    (split; [apply wf_board_explicit|]); (split; [reflexivity|]);
    rewrite !zero_cells_explicit, !count0_4, (iz_nonzero v Hv);
    change (iz 0) with 1; unfold grid_sum; cbn [concat app foldr];
    split; lia.
Qed.

(** [add_random_tile] with an empty cell on the board: the chosen cell was
    empty, it holds 2 or 4 afterwards and nothing else changes. *)
Lemma add_random_tile_spawns (g : grid) (pick : nat) (two : bool) :
  wf_board g → empty_cells g ≠ [] →
  ∃ (r c : nat) (v : Z),
    (r, c) ∈ empty_cells g ∧ (v = 2 ∨ v = 4)
    ∧ add_random_tile g pick two = set_cell g r c v
    ∧ wf_board (add_random_tile g pick two)
    ∧ cell (add_random_tile g pick two) r c = v
    ∧ zero_cells (add_random_tile g pick two) = zero_cells g - 1
    ∧ grid_sum (add_random_tile g pick two) = grid_sum g + v.
Proof.
  intros Hwf Hne.
  destruct (empty_cells g) as [|e es] eqn:He; [congruence|].
  assert (Hin : nth pick (e :: es) e ∈ empty_cells g).
  { rewrite He. apply list_elem_of_In.
    destruct (Nat.lt_ge_cases pick (length (e :: es))) as [Hlt|Hge].
    - apply nth_In. exact Hlt.
    - rewrite nth_overflow by exact Hge. left. reflexivity. }
  assert (Hadd : add_random_tile g pick two
                 = let '(r, c) := nth pick (e :: es) e in
                   set_cell g r c (if two then 2 else 4)).
  { unfold add_random_tile. rewrite He. reflexivity. }
  destruct (nth pick (e :: es) e) as [r c].
  pose proof (proj1 (empty_cells_spec g r c) Hin) as [Hrc Hcell].
  assert (Hv : (if two then 2 else 4) ≠ 0) by (destruct two; lia).
  destruct (set_cell_empty g r c (if two then 2 else 4) Hwf Hrc Hcell Hv)
    as (H1 & H2 & H3 & H4).
  exists r, c, (if two then 2 else 4). rewrite Hadd, <- He.
  split; [exact Hin|]. split; [destruct two; tauto|].
  split; [reflexivity|]. split; [exact H1|]. split; [exact H2|].
  split; [exact H3 | exact H4].
Qed.

Lemma add_random_tile_full (g : grid) (pick : nat) (two : bool) :
  empty_cells g = [] → add_random_tile g pick two = g.
Proof. intros He. unfold add_random_tile. rewrite He. reflexivity. Qed.

Lemma add_random_tile_wf (g : grid) (pick : nat) (two : bool) :
  wf_board g → wf_board (add_random_tile g pick two).
Proof.
  intros Hwf. destruct (decide (empty_cells g = [])) as [He|Hne].
  - rewrite add_random_tile_full by exact He. exact Hwf.
  - destruct (add_random_tile_spawns g pick two Hwf Hne)
      as (r & c & v & _ & _ & _ & H & _). exact H.
Qed.

Lemma empty_cells_game_over (g : grid) :
  wf_board g → empty_cells g ≠ [] → game_over g = false.
Proof.
  intros Hwf Hne. destruct (game_over g) eqn:Hgo; [|reflexivity].
  exfalso. apply Hne. apply game_over_no_empty; assumption.
Qed.

Lemma initialize_game_board (pick1 : nat) (two1 : bool)
    (pick2 : nat) (two2 : bool) :
  let g := initialize_game pick1 two1 pick2 two2 in
  wf_board g ∧ zero_cells g = 14 ∧ 4 ≤ grid_sum g ≤ 8
  ∧ game_over g = false.
Proof.
  cbv zeta. unfold initialize_game.
  set (g0 := replicate 4 (replicate 4 0)).
  assert (Hwf0 : wf_board g0) by apply wf_board_explicit.
  assert (Hne0 : empty_cells g0 ≠ []) by (vm_compute; discriminate).
  destruct (add_random_tile_spawns g0 pick1 two1 Hwf0 Hne0)
    as (r1 & c1 & v1 & _ & Hv1 & _ & Hwf1 & _ & Hz1 & Hs1).
  set (g1 := add_random_tile g0 pick1 two1) in *.
  assert (Hne1 : empty_cells g1 ≠ []).
  { intros He. pose proof (zero_cells_empty_cells g1 Hwf1) as Hl.
    rewrite He, Hz1 in Hl. vm_compute in Hl. discriminate. }
  destruct (add_random_tile_spawns g1 pick2 two2 Hwf1 Hne1)
    as (r2 & c2 & v2 & _ & Hv2 & _ & Hwf2 & _ & Hz2 & Hs2).
  set (g2 := add_random_tile g1 pick2 two2) in *.
  assert (Hz0 : zero_cells g0 = 16) by reflexivity.
  assert (Hs0 : grid_sum g0 = 0) by reflexivity.
  split; [exact Hwf2|]. split; [lia|]. split; [lia|].
  apply empty_cells_game_over; [exact Hwf2|].
  intros He. pose proof (zero_cells_empty_cells g2 Hwf2) as Hl.
  rewrite He in Hl. cbn [length] in Hl. lia.
Qed.

(** ** Candidate moves *)

Lemma get_possible_moves_spec (g : grid) (d : direction) (g' : grid) :
  (d, g') ∈ get_possible_moves g ↔ g' = move g d ∧ move g d ≠ g.
Proof.
  unfold get_possible_moves. cbn [foldl].
  repeat case_bool_decide; cbn [app];
    rewrite ?elem_of_cons, elem_of_nil;
    destruct d; split; intros Hm; destruct_or?; destruct_and?;
    simplify_eq; tauto.
Qed.

Lemma get_possible_moves_order (g : grid) :
  sublist (map fst (get_possible_moves g)) [Up; Down; Left; Right].
Proof.
  unfold get_possible_moves. cbn [foldl].
  repeat case_bool_decide; cbn [app map fst];
    repeat first [apply sublist_nil | apply sublist_skip | apply sublist_cons].
Qed.

(** ** More on the search *)

Section search_more.
Context {F : Type} `{FloatOps F}.

Lemma max_loop_nomemo_best (rec : grid → option (result F))
    (moves : list (direction * grid)) :
  ∀ (max_score : F) (best : option direction) (score : F) (d : direction),
    max_loop_nomemo rec moves max_score best = Some (score, Some d) →
    best = Some d ∨ d ∈ map fst moves.
Proof.
  induction moves as [|[d0 new_grid] moves IH];
    intros max_score best score d; cbn [max_loop_nomemo map fst].
  - intros Hr. left. congruence.
  - destruct (rec new_grid) as [[s ?]|]; [|discriminate]. simpl.
    rewrite elem_of_cons.
    destruct (fgt s max_score); intros Hr;
      destruct (IH _ _ _ _ Hr) as [Hb|Hin]; try tauto.
    inversion Hb; subst. tauto.
Qed.

(** A direction returned by the recursion is a candidate move of a
    maximizing node that is not a leaf. *)
Lemma expectimax_nomemo_direction (max_depth : Z) (fuel : nat) (g : grid)
    (depth : Z) (player_turn : bool) (score : F) (d : direction) :
  expectimax_nomemo fuel g depth player_turn max_depth = Some (score, Some d) →
  player_turn = true ∧ depth ≠ max_depth ∧ game_over g = false
  ∧ (d, move g d) ∈ get_possible_moves g ∧ move g d ≠ g.
Proof.
  destruct fuel as [|fuel]; [discriminate|].
  cbn [expectimax_nomemo]. intros Hr.
  destruct ((depth =? max_depth) || game_over g) eqn:Hc; [congruence|].
  apply orb_false_elim in Hc. destruct Hc as [Hd Hgo].
  apply Z.eqb_neq in Hd.
  destruct player_turn.
  - destruct (max_loop_nomemo_best _ _ _ _ _ _ Hr) as [?|Hin]; [congruence|].
    apply list_elem_of_fmap in Hin. destruct Hin as ([d' g'] & -> & Hin).
    pose proof (proj1 (get_possible_moves_spec g d' g') Hin) as [-> Hne].
    auto.
  - destruct (bool_decide _); [congruence|].
    destruct (chance_loop_nomemo _ _ _ _ _); simpl in Hr; congruence.
Qed.

(** What [expectimax] returns is in the table afterwards, and asking again
    returns it without touching the table. *)
Lemma expectimax_cached (max_depth : Z) (fuel : nat) (g : grid) (depth : Z)
    (player_turn : bool) (tt tt' : gmap key (result F)) (r : result F) :
  expectimax fuel g depth player_turn max_depth tt = Some (r, tt') →
  tt' !! (g, depth, player_turn) = Some r
  ∧ ∀ fuel' : nat,
      expectimax (S fuel') g depth player_turn max_depth tt' = Some (r, tt').
Proof.
  intros Hr.
  assert (Hl : tt' !! (g, depth, player_turn) = Some r).
  { destruct fuel as [|fuel]; [discriminate|]. cbn [expectimax] in Hr.
    destruct (tt !! (g, depth, player_turn)) as [cached|] eqn:Hl.
    { inversion Hr; subst. exact Hl. }
    destruct ((depth =? max_depth) || game_over g).
    { inversion Hr; subst. apply lookup_insert_eq. }
    destruct player_turn.
    - destruct (max_loop _ _ _ _ _) as [[[max_score best] tt1]|];
        [|discriminate].
      simpl in Hr. inversion Hr; subst. apply lookup_insert_eq.
    - destruct (bool_decide _).
      { inversion Hr; subst. apply lookup_insert_eq. }
      destruct (chance_loop _ _ _ _ _ _) as [[score tt1]|]; [|discriminate].
      simpl in Hr. inversion Hr; subst. apply lookup_insert_eq. }
  split; [exact Hl|]. intros fuel'. cbn [expectimax]. rewrite Hl. reflexivity.
Qed.

(** *** Entries are never replaced *)

Lemma max_loop_extends rec :
  rec_extends rec →
  ∀ moves max_score best tt r tt',
    max_loop rec moves max_score best tt = Some (r, tt') → tt ⊆ tt'.
Proof.
  intros Hrec moves. induction moves as [|[d new_grid] moves IH];
    intros max_score best tt r tt'; cbn [max_loop].
  - intros Hr. inversion Hr; subst. reflexivity.
  - destruct (rec new_grid tt) as [[[score ?] tt1]|] eqn:Hc; [|discriminate].
    simpl. pose proof (Hrec _ _ _ _ Hc) as Hsub.
    destruct (fgt score max_score); intros Hr;
      (etrans; [exact Hsub | exact (IH _ _ _ _ _ Hr)]).
Qed.

Lemma spawn_loop_extends rec :
  rec_extends rec →
  ∀ g r c total outcomes score tt score' tt',
    spawn_loop rec g r c total outcomes score tt = Some (score', tt') →
    tt ⊆ tt'.
Proof.
  intros Hrec g r c total outcomes.
  induction outcomes as [|[value probability] outcomes IH];
    intros score tt score' tt'; cbn [spawn_loop].
  - intros Hr. inversion Hr; subst. reflexivity.
  - destruct (rec (set_cell g r c value) tt) as [[[tile_score ?] tt1]|] eqn:Hc;
      [|discriminate].
    simpl. pose proof (Hrec _ _ _ _ Hc) as Hsub. intros Hr.
    etrans; [exact Hsub | exact (IH _ _ _ _ Hr)].
Qed.

Lemma chance_loop_extends rec :
  rec_extends rec →
  ∀ g total cells score tt score' tt',
    chance_loop rec g total cells score tt = Some (score', tt') → tt ⊆ tt'.
Proof.
  intros Hrec g total cells.
  induction cells as [|[r c] cells IH]; intros score tt score' tt';
    cbn [chance_loop].
  - intros Hr. inversion Hr; subst. reflexivity.
  - destruct (spawn_loop rec g r c total _ score tt) as [[score1 tt1]|] eqn:Hc;
      [|discriminate].
    simpl. pose proof (spawn_loop_extends rec Hrec _ _ _ _ _ _ _ _ _ Hc) as Hsub.
    intros Hr. etrans; [exact Hsub | exact (IH _ _ _ _ Hr)].
Qed.

Lemma insert_after_miss (tt tt1 : gmap key (result F)) (k : key)
    (r : result F) :
  tt !! k = None → tt ⊆ tt1 → tt ⊆ <[k := r]> tt1.
Proof.
  intros Hmiss Hsub. apply map_subseteq_spec. intros k' v Hl.
  assert (k ≠ k') by congruence.
  rewrite lookup_insert_ne by assumption.
  exact (lookup_weaken _ _ _ _ Hl Hsub).
Qed.

Lemma expectimax_extends (max_depth : Z) (fuel : nat) :
  ∀ (depth : Z) (player_turn : bool),
    rec_extends (λ g tt, expectimax fuel g depth player_turn max_depth tt).
Proof.
  induction fuel as [|fuel IH]; intros depth player_turn g tt r tt';
    [discriminate|].
  cbn [expectimax].
  destruct (tt !! (g, depth, player_turn)) as [cached|] eqn:Hl.
  { intros Hr. inversion Hr; subst. reflexivity. }
  destruct ((depth =? max_depth) || game_over g).
  { intros Hr. inversion Hr; subst. apply insert_subseteq. exact Hl. }
  destruct player_turn.
  - destruct (max_loop _ _ _ _ _) as [[[max_score best] tt1]|] eqn:Hc;
      [|discriminate].
    simpl. intros Hr. inversion Hr; subst.
    apply insert_after_miss; [exact Hl|].
    exact (max_loop_extends _ (IH (depth + 1) false) _ _ _ _ _ _ Hc).
  - destruct (bool_decide _).
    { intros Hr. inversion Hr; subst. apply insert_subseteq. exact Hl. }
    destruct (chance_loop _ _ _ _ _ _) as [[score tt1]|] eqn:Hc;
      [|discriminate].
    simpl. intros Hr. inversion Hr; subst.
    apply insert_after_miss; [exact Hl|].
    exact (chance_loop_extends _ (IH (depth + 1) true) _ _ _ _ _ _ _ Hc).
Qed.
End search_more.


(** ** Signs of the smoothness and monotonicity scores in exact arithmetic *)

Lemma nonpos_zero : nonpos (of_int 0).
Proof. exists 0%R. split; [reflexivity | lra]. Qed.

Lemma nonpos_nth (l : list xreal) (i : nat) :
  Forall nonpos l → nonpos (nth i l (of_int 0)).
Proof.
  intros Hl. destruct (nth_lookup_or_length l i (of_int 0)) as [Hi|Hi].
  - exact (Forall_lookup_1 _ _ _ _ Hl Hi).
  - rewrite nth_overflow by lia. apply nonpos_zero.
Qed.

Lemma log2_or_0_fin (v : Z) : ∃ x : R, @log2_or_0 xreal _ v = Fin x.
Proof. unfold log2_or_0. destruct (bool_decide (v ≠ 0)); simpl; eauto. Qed.

Lemma xreal_gt_fin (x y : R) : xreal_gt (Fin x) (Fin y) = true → (x > y)%R.
Proof. simpl. destruct (Rgt_dec x y); [tauto | discriminate]. Qed.

Lemma smooth_scan_nonpos (fuel : nat) (g : grid) (dx dy : nat) (v : R) :
  ∀ (nx ny : nat) (smoothness : xreal),
    nonpos smoothness →
    nonpos (smooth_scan fuel g nx ny dx dy (Fin v) smoothness).
Proof.
  induction fuel as [|fuel IH]; intros nx ny smoothness Hs;
    cbn [smooth_scan]; [exact Hs|].
  destruct ((nx <? 4)%nat && (ny <? 4)%nat); [|exact Hs].
  destruct (bool_decide (cell g nx ny ≠ 0)); [|apply IH; exact Hs].
  destruct Hs as (r & -> & Hr). simpl. eexists. split; [reflexivity|].
  pose proof (Rabs_pos (v - ln (IZR (cell g nx ny)) / ln 2)). lra.
Qed.

Lemma smoothness_nonpos (g : grid) : nonpos (smoothness_heuristic g).
Proof.
  unfold smoothness_heuristic. generalize cells4.
  assert (Hstart : nonpos (of_int 0)) by apply nonpos_zero.
  revert Hstart. generalize (@of_int xreal _ 0). intros s Hs cells.
  revert s Hs. induction cells as [|[x y] cells IH]; intros s Hs;
    cbn [foldl]; [exact Hs|].
  apply IH. destruct (bool_decide (cell g x y ≠ 0)); [|exact Hs].
  apply smooth_scan_nonpos. apply smooth_scan_nonpos. exact Hs.
Qed.

Lemma mono_line_nonpos (line : row) (lo hi : nat) (totals : list xreal) :
  Forall nonpos totals → Forall nonpos (mono_line line lo hi totals).
Proof.
  unfold mono_line. generalize [0; 1; 2]%nat. intros steps.
  revert totals. induction steps as [|i steps IH]; intros totals Ht;
    cbn [foldl]; [exact Ht|].
  apply IH.
  destruct (log2_or_0_fin (nth i line 0)) as [current ->].
  destruct (log2_or_0_fin (nth (i + 1) line 0)) as [next ->].
  destruct (fgt (Fin current) (Fin next)) eqn:Hgt.
  - apply xreal_gt_fin in Hgt. apply Forall_insert; [exact Ht|].
    destruct (nonpos_nth totals lo Ht) as (t & -> & Hle).
    simpl. eexists. split; [reflexivity | lra].
  - destruct (fgt (Fin next) (Fin current)) eqn:Hlt; [|exact Ht].
    apply xreal_gt_fin in Hlt. apply Forall_insert; [exact Ht|].
    destruct (nonpos_nth totals hi Ht) as (t & -> & Hle).
    simpl. eexists. split; [reflexivity | lra].
Qed.

Lemma fmax_nonpos (a b : xreal) : nonpos a → nonpos b → nonpos (fmax a b).
Proof. intros Ha Hb. unfold fmax. destruct (fgt b a); assumption. Qed.

Lemma monotonicity_nonpos (g : grid) : nonpos (monotonicity_heuristic g).
Proof.
  unfold monotonicity_heuristic. cbv zeta.
  assert (Hrows : Forall nonpos
            (foldl (λ totals x, mono_line (nth x g []) 0 1 totals)
               (replicate 4 (of_int 0)) range4)).
  { assert (H0 : Forall nonpos (replicate 4 (@of_int xreal _ 0)))
      by (apply Forall_replicate, nonpos_zero).
    revert H0. generalize (replicate 4 (@of_int xreal _ 0)). generalize range4.
    intros xs. induction xs as [|x xs IH]; intros totals Ht; cbn [foldl];
      [exact Ht|].
    apply IH, mono_line_nonpos, Ht. }
  revert Hrows.
  generalize (foldl (λ totals x, mono_line (nth x g []) 0 1 totals)
                (replicate 4 (@of_int xreal _ 0)) range4).
  intros totals Ht.
  assert (Hcols : Forall nonpos
            (foldl (λ totals y,
                 mono_line (map (λ x, cell g x y) range4) 2 3 totals)
               totals range4)).
  { revert Ht. generalize totals. generalize range4 at 2.
    intros ys. induction ys as [|y ys IH]; intros totals' Ht'; cbn [foldl];
      [exact Ht'|].
    apply IH, mono_line_nonpos, Ht'. }
  revert Hcols.
  generalize (foldl (λ totals y,
                  mono_line (map (λ x, cell g x y) range4) 2 3 totals)
                totals range4).
  intros totals' Ht'.
  destruct (fmax_nonpos _ _ (nonpos_nth totals' 0 Ht') (nonpos_nth totals' 1 Ht'))
    as (m1 & -> & H1).
  destruct (fmax_nonpos _ _ (nonpos_nth totals' 2 Ht') (nonpos_nth totals' 3 Ht'))
    as (m2 & -> & H2).
  simpl. eexists. split; [reflexivity | lra].
Qed.


(** ** The game loop *)

Lemma is_tile_nonneg (v : Z) : is_tile v → 0 ≤ v.
Proof. intros [->|(k & Hk & ->)]; [lia|]. apply Z.pow_nonneg. lia. Qed.

Lemma tiles_only_nonneg (g : grid) :
  tiles_only g → Forall (Forall (λ v, 0 ≤ v)) g.
Proof.
  intros Hg. apply (Forall_impl _ _ _ Hg). intros r Hr.
  apply (Forall_impl _ _ _ Hr). apply is_tile_nonneg.
Qed.

Lemma foldr_max_tile (l : list Z) :
  Forall is_tile l → is_tile (foldr Z.max 0 l).
Proof.
  induction 1 as [|x l Hx _ IH]; simpl; [left; reflexivity|].
  destruct (Z.max_spec x (foldr Z.max 0 l)) as [[_ ->]|[_ ->]]; assumption.
Qed.

Lemma foldr_max_positive (l : list Z) :
  Forall (λ v, 0 ≤ v) l → 0 < foldr Z.add 0 l → 0 < foldr Z.max 0 l.
Proof.
  induction 1 as [|x l Hx _ IH]; simpl; [lia|].
  intros Hs. destruct (decide (0 < x)); [lia|].
  assert (0 < foldr Z.max 0 l) by (apply IH; lia). lia.
Qed.

(** The largest tile of a board of tiles that is not empty is a power of
    two, at least 2. *)
Lemma largest_tile_power (g : grid) :
  tiles_only g → 0 < grid_sum g →
  ∃ k : Z, 1 ≤ k ∧ max_list_Z (map max_list_Z g) = 2 ^ k.
Proof.
  intros Hg Hs. rewrite (max_tile_largest g (tiles_only_nonneg g Hg)).
  unfold largest_tile.
  assert (Ht : Forall is_tile (concat g)) by (apply Forall_concat; exact Hg).
  assert (Hp : 0 < foldr Z.max 0 (concat g)).
  { apply foldr_max_positive; [|exact Hs].
    apply (Forall_impl _ _ _ Ht). apply is_tile_nonneg. }
  destruct (foldr_max_tile _ Ht) as [E|(k & Hk & E)]; [lia|]. eauto.
Qed.


Lemma playable_turn (g : grid) (d : direction) (pick : nat) (two : bool) :
  playable g → playable (add_random_tile (move g d) pick two).
Proof.
  intros (Hwf & Ht & Hs).
  pose proof (move_wf g d Hwf) as Hwf'.
  pose proof (move_tiles g d Hwf Ht) as Ht'.
  pose proof (move_sum g d Hwf) as Hs'.
  split; [apply add_random_tile_wf; exact Hwf'|].
  split; [apply add_random_tile_tiles; exact Ht'|].
  destruct (decide (empty_cells (move g d) = [])) as [He|Hne].
  - rewrite add_random_tile_full by exact He. lia.
  - destruct (add_random_tile_spawns (move g d) pick two Hwf' Hne)
      as (r & c & v & _ & Hv & _ & _ & _ & _ & Hsum).
    lia.
Qed.

Section game_facts.
Context {F : Type} `{FloatOps F}.

Lemma play_loop_result (search_fuel : nat) (rnd : Z → nat * bool)
    (move_limit max_depth : Z) (fuel : nat) :
  0 ≤ max_depth → max_depth < Z.of_nat search_fuel →
  ∀ (g : grid) (tt : gmap key (result F)) (moves_made : Z),
    playable g → moves_made ≤ move_limit →
    move_limit - moves_made < Z.of_nat fuel →
    ∃ (g' : grid) (n : Z),
      play_loop fuel search_fuel rnd g tt moves_made move_limit max_depth
      = Some (g', n)
      ∧ playable g' ∧ moves_made ≤ n ≤ move_limit.
Proof.
  intros Hmd Hsf. induction fuel as [|fuel IH];
    intros g tt moves_made Hg Hle Hfuel; [lia|].
  cbn [play_loop].
  destruct (negb (game_over g) && (moves_made <? move_limit)) eqn:Hc.
  - apply andb_prop in Hc. destruct Hc as [_ Hlt]. apply Z.ltb_lt in Hlt.
    destruct (expectimax_total max_depth search_fuel g 0 true tt
                ltac:(lia) ltac:(lia)) as [[[score best] tt1] ->].
    simpl. destruct best as [d|].
    + destruct (IH (add_random_tile (move g d) (rnd moves_made).1
                      (rnd moves_made).2) tt1 (moves_made + 1)
                  (playable_turn g d _ _ Hg) ltac:(lia) ltac:(lia))
        as (g' & n & -> & Hg' & Hn).
      exists g', n. split; [reflexivity|]. split; [exact Hg' | lia].
    + exists g, moves_made. split; [reflexivity|]. split; [exact Hg | lia].
  - exists g, moves_made. split; [reflexivity|]. split; [exact Hg | lia].
Qed.

Lemma play_game_result (fuel search_fuel : nat) (pick1 : nat) (two1 : bool)
    (pick2 : nat) (two2 : bool) (rnd : Z → nat * bool) :
  1000 < Z.of_nat fuel → 3 < Z.of_nat search_fuel →
  ∃ k : Z,
    1 ≤ k
    ∧ @play_game F _ fuel search_fuel pick1 two1 pick2 two2 rnd
      = Some (2 ^ k).
Proof.
  intros Hfuel Hsf. unfold play_game.
  destruct (initialize_game_board pick1 two1 pick2 two2)
    as (Hwf & _ & Hs & _).
  pose proof (initialize_game_tiles pick1 two1 pick2 two2) as Ht.
  destruct (play_loop_result search_fuel rnd 1000 3 fuel ltac:(lia) Hsf
              (initialize_game pick1 two1 pick2 two2) ∅ 0
              ltac:(split; [exact Hwf | split; [exact Ht | lia]])
              ltac:(lia) ltac:(lia))
    as (g' & n & -> & (_ & Ht' & Hs') & _).
  simpl. destruct (largest_tile_power g' Ht' Hs') as (k & Hk & ->). eauto.
Qed.
End game_facts.

(** ** The largest tile and its logarithm *)

(** A board of the kind the game holds. *)
Lemma playable_sample :
  playable [[2; 2; 0; 0]; [0; 4; 0; 0]; [0; 4; 8; 0]; [0; 0; 0; 16]].
Proof.
  split; [apply wf_board_explicit|]. split.
  - unfold tiles_only.
    repeat (apply Forall_cons_2 || apply Forall_nil_2);
      solve [ left; reflexivity
            | right; exists 1; split; [lia | reflexivity]
            | right; exists 2; split; [lia | reflexivity]
            | right; exists 3; split; [lia | reflexivity]
            | right; exists 4; split; [lia | reflexivity] ].
  - vm_compute. reflexivity.
Qed.

(** In exact arithmetic the base-2 logarithm of [2^k] is [k]. *)
Lemma xreal_log2_power (k : Z) :
  0 ≤ k → @log2 xreal xreal_ops (2 ^ k) = Fin (IZR k).
Proof.
  intros Hk. cbn [log2 xreal_ops]. f_equal.
  rewrite <- (Z2Nat.id k Hk), <- pow_IZR, ln_pow by lra.
  rewrite INR_IZR_INZ. pose proof ln_lt_2 as Hln. field. lra.
Qed.

Lemma max_tile_exponent (g : grid) :
  playable g →
  ∃ k : Z,
    1 ≤ k ∧ largest_tile g = 2 ^ k
    ∧ @max_tile_heuristic xreal xreal_ops g = Fin (IZR k).
Proof.
  intros (Hwf & Ht & Hs).
  destruct (largest_tile_power g Ht Hs) as (k & Hk & E).
  exists k. split; [exact Hk|]. split.
  - rewrite <- (max_tile_largest g (tiles_only_nonneg g Ht)). exact E.
  - unfold max_tile_heuristic. rewrite E.
    rewrite bool_decide_eq_true_2 by lia.
    apply xreal_log2_power. lia.
Qed.

(** ** The choice of a maximizing node, in exact arithmetic *)

















(** * The further properties *)

(** X1.  On a 4x4 board quarter turns add up: turning [j] times and then [k]
    times is turning [j + k] times, for negative counts too; so a turn and
    the opposite turn cancel, and any multiple of four turns changes no
    grid. *)
Theorem rotate_turns_add :
  (∀ (g : grid) (j k : Z),
      wf_board g → rotate (rotate g j) k = rotate g (j + k))
  ∧ (∀ g : grid,
        wf_board g →
        rotate (rotate g 1) (-1) = g ∧ rotate (rotate g (-1)) 1 = g)
  ∧ (∀ (g : grid) (k : Z), rotate g (4 * k) = g).
Proof.
  split; [|split].
  - apply rotate_add.
  - apply rotate_inverse.
  - apply rotate_multiple_of_4.
Qed.

Lemma rotate_turns_add_witness :
  let b := [[2; 2; 0; 0]; [0; 4; 0; 0]; [0; 4; 8; 0]; [0; 0; 0; 16]] in
  rotate (rotate b 3) (-5) = rotate b (3 + -5)
  ∧ rotate (rotate b 1) (-1) = b.
Proof.
  split.
  - apply (proj1 rotate_turns_add). apply wf_board_explicit.
  - apply (proj1 (proj2 rotate_turns_add)). apply wf_board_explicit.
Defined.

(** X2.  Reversing the rows of a grid twice gives the grid back, whatever
    its shape. *)
Theorem reverse_twice (g : grid) : reverse (reverse g) = g.
Proof. apply reverse_involutive. Qed.

(** X3.  A move of a 4x4 board is a 4x4 board, in every direction. *)
Theorem move_keeps_shape (g : grid) (d : direction) :
  wf_board g → wf_board (move g d).
Proof. apply move_wf. Qed.

Lemma move_keeps_shape_witness :
  wf_board (move [[2; 2; 0; 0]; [0; 4; 0; 0]; [0; 4; 8; 0]; [0; 0; 0; 16]] Up).
Proof. apply move_keeps_shape. apply wf_board_explicit. Defined.

(** X4.  After [merge_left] every row is a run of non-zero tiles followed by
    zeros only: no zero is left before a tile.  There are no more tiles than
    the row had, and a row of at most four cells gets length 4. *)
Theorem merge_row_tiles_first (r : row) :
  ∃ (tiles : list Z) (k : nat),
    merge_row r = tiles ++ replicate k 0
    ∧ Forall (λ v, v ≠ 0) tiles
    ∧ (length tiles ≤ length (compact r))%nat
    ∧ (length r ≤ 4 → length tiles + k = 4)%nat.
Proof. apply merge_row_shape. Qed.

Lemma merge_row_tiles_first_witness :
  let r : row := [0; 2; 0; 2] in
  ∃ (tiles : list Z) (k : nat),
    merge_row r = tiles ++ replicate k 0
    ∧ Forall (λ v, v ≠ 0) tiles
    ∧ (length tiles ≤ length (compact r))%nat
    ∧ (length r ≤ 4 → length tiles + k = 4)%nat.
Proof. apply (merge_row_tiles_first [0; 2; 0; 2]). Defined.

(** X5.  A move of a 4x4 board never lowers the number of empty cells, and a
    move that changes the board leaves at least one cell empty, so that a
    tile can be spawned after it. *)
Theorem move_keeps_empty_cells (g : grid) (d : direction) :
  wf_board g →
  zero_cells g ≤ zero_cells (move g d)
  ∧ (move g d ≠ g → 1 ≤ zero_cells (move g d))
  ∧ (move g d ≠ g → empty_cells (move g d) ≠ []).
Proof.
  intros Hwf. destruct (move_zero_cells g d Hwf) as [Hle Hne].
  split; [exact Hle|]. split; [exact Hne|].
  intros Hm He. specialize (Hne Hm).
  rewrite (zero_cells_empty_cells _ (move_wf g d Hwf)), He in Hne.
  cbn [length] in Hne. lia.
Qed.

Lemma move_keeps_empty_cells_witness :
  let b := [[2; 4; 2; 4]; [4; 2; 4; 2]; [2; 4; 2; 4]; [4; 2; 8; 8]] in
  zero_cells b ≤ zero_cells (move b Left)
  ∧ (move b Left ≠ b → 1 ≤ zero_cells (move b Left))
  ∧ (move b Left ≠ b → empty_cells (move b Left) ≠ []).
Proof. apply move_keeps_empty_cells. apply wf_board_explicit. Defined.

(** X6.  [add_random_tile] on a 4x4 board with an empty cell, for every
    outcome of the random draws: the cell it writes was empty, it holds 2 or
    4 afterwards, every other cell keeps its value, the board stays 4x4, the
    number of empty cells drops by one and the sum of the cells grows by the
    new tile.  On a 4x4 board without empty cell it changes nothing. *)
Theorem add_random_tile_fills_one (g : grid) (pick : nat) (two : bool) :
  wf_board g →
  (empty_cells g ≠ [] →
   ∃ (r c : nat) (v : Z),
     (r, c) ∈ empty_cells g ∧ (v = 2 ∨ v = 4)
     ∧ wf_board (add_random_tile g pick two)
     ∧ cell (add_random_tile g pick two) r c = v
     ∧ (∀ r' c' : nat,
           (r', c') ≠ (r, c) →
           cell (add_random_tile g pick two) r' c' = cell g r' c')
     ∧ zero_cells (add_random_tile g pick two) = zero_cells g - 1
     ∧ grid_sum (add_random_tile g pick two) = grid_sum g + v)
  ∧ (empty_cells g = [] → add_random_tile g pick two = g).
Proof.
  intros Hwf. split; [|apply add_random_tile_full].
  intros Hne.
  destruct (add_random_tile_spawns g pick two Hwf Hne)
    as (r & c & v & Hin & Hv & Hset & Hwf' & Hcell & Hz & Hs).
  exists r, c, v. repeat (split; [assumption|]).
  split; [|split; assumption].
  intros r' c' Hother. rewrite Hset. apply set_cell_other. exact Hother.
Qed.

Lemma add_random_tile_fills_one_witness :
  let b := [[2; 2; 0; 0]; [0; 4; 0; 0]; [0; 4; 8; 0]; [0; 0; 0; 16]] in
  ∃ (r c : nat) (v : Z),
    (r, c) ∈ empty_cells b ∧ (v = 2 ∨ v = 4)
    ∧ wf_board (add_random_tile b 3 false)
    ∧ cell (add_random_tile b 3 false) r c = v
    ∧ (∀ r' c' : nat,
          (r', c') ≠ (r, c) →
          cell (add_random_tile b 3 false) r' c' = cell b r' c')
    ∧ zero_cells (add_random_tile b 3 false) = zero_cells b - 1
    ∧ grid_sum (add_random_tile b 3 false) = grid_sum b + v.
Proof.
  apply (proj1 (add_random_tile_fills_one
                  [[2; 2; 0; 0]; [0; 4; 0; 0]; [0; 4; 8; 0]; [0; 0; 0; 16]]
                  3 false (wf_board_explicit _ _ _ _ _ _ _ _ _ _ _ _ _ _ _ _))).
  vm_compute. discriminate.
Defined.

(** X7.  Whatever the random draws, [initialize_game] returns a 4x4 board
    with exactly two tiles (fourteen empty cells), whose cells sum to
    between 4 and 8, and on which the game is not over. *)
Theorem initialize_game_two_tiles (pick1 : nat) (two1 : bool)
    (pick2 : nat) (two2 : bool) :
  let g := initialize_game pick1 two1 pick2 two2 in
  wf_board g ∧ zero_cells g = 14 ∧ 4 ≤ grid_sum g ≤ 8
  ∧ game_over g = false.
Proof. apply initialize_game_board. Qed.

(** X8.  [get_possible_moves] lists exactly the pairs of a direction and the
    board moved in that direction for which the move changes the board,
    in the order up, down, left, right. *)
Theorem possible_moves_change_board (g : grid) :
  (∀ (d : direction) (g' : grid),
      (d, g') ∈ get_possible_moves g ↔ g' = move g d ∧ move g d ≠ g)
  ∧ sublist (map fst (get_possible_moves g)) [Up; Down; Left; Right].
Proof.
  split.
  - intros d g'. apply get_possible_moves_spec.
  - apply get_possible_moves_order.
Qed.

Lemma possible_moves_change_board_witness :
  let b := [[2; 2; 0; 0]; [4; 0; 0; 0]; [8; 0; 0; 0]; [16; 0; 0; 0]] in
  ((Left, move b Left) ∈ get_possible_moves b
   ↔ move b Left = move b Left ∧ move b Left ≠ b)
  ∧ sublist (map fst (get_possible_moves b)) [Up; Down; Left; Right].
Proof.
  split.
  - apply (proj1 (possible_moves_change_board
                    [[2; 2; 0; 0]; [4; 0; 0; 0]; [8; 0; 0; 0]; [16; 0; 0; 0]])).
  - apply (proj2 (possible_moves_change_board
                    [[2; 2; 0; 0]; [4; 0; 0; 0]; [8; 0; 0; 0]; [16; 0; 0; 0]])).
Defined.

(** X9.  On a 4x4 board [empty_cells] lists exactly the positions of the
    zero cells, and [empty_tile_heuristic] is the length of that list, a
    number between 0 and 16. *)
Theorem empty_tile_heuristic_counts (g : grid) :
  wf_board g →
  (∀ r c : nat,
      (r, c) ∈ empty_cells g ↔ (r < 4 ∧ c < 4)%nat ∧ cell g r c = 0)
  ∧ empty_tile_heuristic g = Z.of_nat (length (empty_cells g))
  ∧ 0 ≤ empty_tile_heuristic g ≤ 16.
Proof.
  intros Hwf. split; [apply empty_cells_spec|].
  rewrite empty_tile_heuristic_zero_cells.
  rewrite (zero_cells_empty_cells g Hwf). split; [reflexivity|].
  pose proof (length_filter (λ '(r, c), cell g r c = 0) cells4) as Hl.
  unfold empty_cells. change (length cells4) with 16%nat in Hl. lia.
Qed.

Lemma empty_tile_heuristic_counts_witness :
  let b := [[2; 2; 0; 0]; [0; 4; 0; 0]; [0; 4; 8; 0]; [0; 0; 0; 16]] in
  (∀ r c : nat,
      (r, c) ∈ empty_cells b ↔ (r < 4 ∧ c < 4)%nat ∧ cell b r c = 0)
  ∧ empty_tile_heuristic b = Z.of_nat (length (empty_cells b))
  ∧ 0 ≤ empty_tile_heuristic b ≤ 16.
Proof.
  apply (empty_tile_heuristic_counts
           [[2; 2; 0; 0]; [0; 4; 0; 0]; [0; 4; 8; 0]; [0; 0; 0; 16]]).
  apply wf_board_explicit.
Defined.

(** X10.  A direction returned by [expectimax] on a 4x4 board, started from
    a table whose entries are sound, is always a move that changes the
    board: it comes from a maximizing node below the depth limit on a board
    that is not terminal, and it is one of the candidate moves. *)
Theorem chosen_direction_changes_board {F : Type} `{FloatOps F} (g : grid)
    (depth max_depth : Z) (player_turn : bool) (fuel : nat)
    (tt tt' : gmap key (result F)) (score : F) (d : direction) :
  wf_board g →
  depth ≤ max_depth → max_depth - depth < Z.of_nat fuel →
  table_sound max_depth tt →
  expectimax fuel g depth player_turn max_depth tt
  = Some ((score, Some d), tt') →
  player_turn = true ∧ depth ≠ max_depth ∧ game_over g = false
  ∧ (d, move g d) ∈ get_possible_moves g ∧ move g d ≠ g.
Proof.
  intros _ Hd Hfuel Htt Hr.
  destruct (expectimax_agrees max_depth fuel depth player_turn Hd Hfuel
              g tt Htt) as (r & tt1 & Hm & Hn & _).
  rewrite Hr in Hm. inversion Hm; subst.
  exact (expectimax_nomemo_direction max_depth fuel g depth player_turn
           score d Hn).
Qed.

Lemma chosen_direction_changes_board_witness :
  let b := [[2; 2; 0; 0]; [0; 4; 0; 0]; [0; 4; 8; 0]; [0; 0; 0; 16]] in
  true = true ∧ 0 ≠ 2 ∧ game_over b = false
  ∧ (Up, move b Up) ∈ get_possible_moves b ∧ move b Up ≠ b.
Proof.
  cbv zeta.
  destruct (expectimax_agrees (F:=float) 2 3 0 true ltac:(lia)
              ltac:(simpl; lia)
              [[2; 2; 0; 0]; [0; 4; 0; 0]; [0; 4; 8; 0]; [0; 0; 0; 16]]
              ∅ (table_sound_empty 2))
    as ([score d] & tt' & Hm & Hn & _).
  assert (Hd : d = Some Up) by (vm_compute in Hn; congruence).
  rewrite Hd in Hm.
  exact (chosen_direction_changes_board _ 0 2 true 3%nat ∅ tt' score Up
           (wf_board_explicit _ _ _ _ _ _ _ _ _ _ _ _ _ _ _ _)
           ltac:(lia) ltac:(simpl; lia) (table_sound_empty 2) Hm).
Defined.

(** X11.  Whatever [expectimax] returns on a 4x4 board is stored under the
    key of the call, and the same call on the table it leaves returns the
    same result and leaves that table as it is. *)
Theorem expectimax_result_cached {F : Type} `{FloatOps F} (g : grid)
    (depth max_depth : Z) (player_turn : bool) (fuel : nat)
    (tt tt' : gmap key (result F)) (r : result F) :
  wf_board g →
  expectimax fuel g depth player_turn max_depth tt = Some (r, tt') →
  tt' !! (g, depth, player_turn) = Some r
  ∧ ∀ fuel' : nat,
      expectimax (S fuel') g depth player_turn max_depth tt' = Some (r, tt').
Proof. intros _. apply expectimax_cached. Qed.

Lemma expectimax_result_cached_witness :
  let b := [[2; 2; 0; 0]; [0; 4; 0; 0]; [0; 4; 8; 0]; [0; 0; 0; 16]] in
  ∃ (r : result float) (tt' : gmap key (result float)),
    expectimax 3 b 0 true 2 ∅ = Some (r, tt')
    ∧ tt' !! (b, 0, true) = Some r
    ∧ ∀ fuel' : nat, expectimax (S fuel') b 0 true 2 tt' = Some (r, tt').
Proof.
  cbv zeta.
  destruct (expectimax_total (F:=float) 2 3
              [[2; 2; 0; 0]; [0; 4; 0; 0]; [0; 4; 8; 0]; [0; 0; 0; 16]]
              0 true ∅ ltac:(lia) ltac:(simpl; lia)) as [[r tt'] Hr].
  exists r, tt'. split; [exact Hr|].
  exact (expectimax_result_cached _ 0 2 true 3%nat ∅ tt' r
           (wf_board_explicit _ _ _ _ _ _ _ _ _ _ _ _ _ _ _ _) Hr).
Defined.

(** X12.  [expectimax] on a 4x4 board never replaces or removes an entry of
    the table: the table it leaves contains the table it was given. *)
Theorem expectimax_keeps_entries {F : Type} `{FloatOps F} (g : grid)
    (depth max_depth : Z) (player_turn : bool) (fuel : nat)
    (tt tt' : gmap key (result F)) (r : result F) :
  wf_board g →
  expectimax fuel g depth player_turn max_depth tt = Some (r, tt') →
  tt ⊆ tt'.
Proof.
  intros _. apply (expectimax_extends max_depth fuel depth player_turn).
Qed.

Lemma expectimax_keeps_entries_witness :
  let b := [[2; 2; 0; 0]; [0; 4; 0; 0]; [0; 4; 8; 0]; [0; 0; 0; 16]] in
  let tt : gmap key (result float) :=
    {[ (b, 2, false) := (combined_heuristic b, None) ]} in
  ∃ (r : result float) (tt' : gmap key (result float)),
    expectimax 3 b 0 true 2 tt = Some (r, tt') ∧ tt ⊆ tt'.
Proof.
  cbv zeta.
  destruct (expectimax_total (F:=float) 2 3
              [[2; 2; 0; 0]; [0; 4; 0; 0]; [0; 4; 8; 0]; [0; 0; 0; 16]]
              0 true
              {[ ([[2; 2; 0; 0]; [0; 4; 0; 0]; [0; 4; 8; 0]; [0; 0; 0; 16]],
                  2, false)
                 := (combined_heuristic
                       [[2; 2; 0; 0]; [0; 4; 0; 0]; [0; 4; 8; 0];
                        [0; 0; 0; 16]], None) ]}
              ltac:(lia) ltac:(simpl; lia)) as [[r tt'] Hr].
  exists r, tt'. split; [exact Hr|].
  exact (expectimax_keeps_entries _ 0 2 true 3%nat _ tt' r
           (wf_board_explicit _ _ _ _ _ _ _ _ _ _ _ _ _ _ _ _) Hr).
Defined.

(** X13.  The table may be kept from one search of a game to the next: on a
    4x4 board and from any table whose entries are sound for [max_depth],
    [expectimax] returns what the recursion without table returns and leaves
    a sound table. *)
Theorem table_reuse_transparent {F : Type} `{FloatOps F} (g : grid)
    (depth max_depth : Z) (player_turn : bool) (fuel : nat)
    (tt : gmap key (result F)) :
  wf_board g →
  depth ≤ max_depth → max_depth - depth < Z.of_nat fuel →
  table_sound max_depth tt →
  ∃ (r : result F) (tt' : gmap key (result F)),
    expectimax fuel g depth player_turn max_depth tt = Some (r, tt')
    ∧ expectimax_nomemo fuel g depth player_turn max_depth = Some r
    ∧ table_sound max_depth tt'.
Proof.
  intros _ Hd Hfuel Htt.
  exact (expectimax_agrees max_depth fuel depth player_turn Hd Hfuel g tt Htt).
Qed.

Lemma table_reuse_transparent_witness :
  let b := [[2; 2; 0; 0]; [0; 4; 0; 0]; [0; 4; 8; 0]; [0; 0; 0; 16]] in
  let tt : gmap key (result float) :=
    {[ (b, 2, false) := (combined_heuristic b, None) ]} in
  ∃ (r : result float) (tt' : gmap key (result float)),
    expectimax 3 b 0 true 2 tt = Some (r, tt')
    ∧ expectimax_nomemo 3 b 0 true 2 = Some r
    ∧ table_sound 2 tt'.
Proof.
  cbv zeta.
  apply (@table_reuse_transparent float float_ops
           [[2; 2; 0; 0]; [0; 4; 0; 0]; [0; 4; 8; 0]; [0; 0; 0; 16]]
           0 2 true 3%nat).
  - apply wf_board_explicit.
  - lia.
  - simpl. lia.
  - apply (table_sound_insert 2 ∅ 1 _ 2 false).
    + apply table_sound_empty.
    + lia.
    + simpl. lia.
    + reflexivity.
Defined.

(** X14.  In exact arithmetic [smoothness_heuristic] of a 4x4 board of
    non-negative cells is a finite number that is never positive. *)
Theorem smoothness_not_positive (g : grid) :
  wf_board g → Forall (Forall (λ v, 0 ≤ v)) g →
  ∃ r : R, @smoothness_heuristic xreal xreal_ops g = Fin r ∧ (r <= 0)%R.
Proof. intros _ _. apply smoothness_nonpos. Qed.

Lemma smoothness_not_positive_witness :
  let b := [[2; 2; 0; 0]; [0; 4; 0; 0]; [0; 4; 8; 0]; [0; 0; 0; 16]] in
  ∃ r : R, @smoothness_heuristic xreal xreal_ops b = Fin r ∧ (r <= 0)%R.
Proof.
  apply (smoothness_not_positive
           [[2; 2; 0; 0]; [0; 4; 0; 0]; [0; 4; 8; 0]; [0; 0; 0; 16]]).
  - apply wf_board_explicit.
  - repeat (apply Forall_cons_2 || apply Forall_nil_2); lia.
Defined.

(** X15.  In exact arithmetic [monotonicity_heuristic] of a 4x4 board of
    non-negative cells is a finite number that is never positive. *)
Theorem monotonicity_not_positive (g : grid) :
  wf_board g → Forall (Forall (λ v, 0 ≤ v)) g →
  ∃ r : R, @monotonicity_heuristic xreal xreal_ops g = Fin r ∧ (r <= 0)%R.
Proof. intros _ _. apply monotonicity_nonpos. Qed.

Lemma monotonicity_not_positive_witness :
  let b := [[2; 2; 0; 0]; [0; 4; 0; 0]; [0; 4; 8; 0]; [0; 0; 0; 16]] in
  ∃ r : R, @monotonicity_heuristic xreal xreal_ops b = Fin r ∧ (r <= 0)%R.
Proof.
  apply (monotonicity_not_positive
           [[2; 2; 0; 0]; [0; 4; 0; 0]; [0; 4; 8; 0]; [0; 0; 0; 16]]).
  - apply wf_board_explicit.
  - repeat (apply Forall_cons_2 || apply Forall_nil_2); lia.
Defined.

(** X16.  The loop of [play_game], started on a 4x4 board of tiles that is
    not empty, ends on such a board after at most [move_limit] moves,
    whatever the random draws and whatever the table holds. *)
Theorem play_loop_keeps_board {F : Type} `{FloatOps F}
    (fuel search_fuel : nat) (rnd : Z → nat * bool) (g : grid)
    (tt : gmap key (result F)) (moves_made move_limit max_depth : Z) :
  0 ≤ max_depth → max_depth < Z.of_nat search_fuel →
  playable g → moves_made ≤ move_limit →
  move_limit - moves_made < Z.of_nat fuel →
  ∃ (g' : grid) (n : Z),
    play_loop fuel search_fuel rnd g tt moves_made move_limit max_depth
    = Some (g', n)
    ∧ playable g' ∧ moves_made ≤ n ≤ move_limit.
Proof.
  intros Hmd Hsf Hg Hle Hfuel.
  exact (play_loop_result search_fuel rnd move_limit max_depth fuel Hmd Hsf
           g tt moves_made Hg Hle Hfuel).
Qed.

Lemma play_loop_keeps_board_witness :
  let b := [[2; 2; 0; 0]; [0; 4; 0; 0]; [0; 4; 8; 0]; [0; 0; 0; 16]] in
  ∃ (g' : grid) (n : Z),
    play_loop 1001 4 (λ _, (0%nat, true)) b (∅ : gmap key (result float))
      0 1000 3
    = Some (g', n)
    ∧ playable g' ∧ 0 ≤ n ≤ 1000.
Proof.
  apply (@play_loop_keeps_board float float_ops 1001 4 (λ _, (0%nat, true))
           [[2; 2; 0; 0]; [0; 4; 0; 0]; [0; 4; 8; 0]; [0; 0; 0; 16]] ∅
           0 1000 3).
  - lia.
  - simpl. lia.
  - split; [apply wf_board_explicit|]. split.
    + unfold tiles_only.
      repeat (apply Forall_cons_2 || apply Forall_nil_2);
        solve [ left; reflexivity
              | right; exists 1; split; [lia | reflexivity]
              | right; exists 2; split; [lia | reflexivity]
              | right; exists 3; split; [lia | reflexivity]
              | right; exists 4; split; [lia | reflexivity] ].
    + vm_compute. reflexivity.
  - lia.
  - simpl. lia.
Defined.

(** X17.  [play_game] returns, whatever the random draws: the largest tile
    it reports is a power of two, at least 2. *)
Theorem play_game_returns_tile {F : Type} `{FloatOps F}
    (fuel search_fuel : nat) (pick1 : nat) (two1 : bool)
    (pick2 : nat) (two2 : bool) (rnd : Z → nat * bool) :
  1000 < Z.of_nat fuel → 3 < Z.of_nat search_fuel →
  ∃ k : Z,
    1 ≤ k
    ∧ @play_game F _ fuel search_fuel pick1 two1 pick2 two2 rnd
      = Some (2 ^ k).
Proof. apply play_game_result. Qed.

Lemma play_game_returns_tile_witness :
  ∃ k : Z,
    1 ≤ k
    ∧ @play_game float float_ops 1001 4 5 true 9 false (λ _, (0%nat, true))
      = Some (2 ^ k).
Proof.
  apply (@play_game_returns_tile float float_ops 1001 4 5 true 9 false
           (λ _, (0%nat, true))).
  - simpl. lia.
  - simpl. lia.
Defined.

(** X18.  In exact arithmetic [max_tile_heuristic] of a board the game can
    hold (4x4, tiles only, at least one tile) is the exponent of its largest
    tile: the largest cell is [2^k] with [k >= 1] and the heuristic is
    [k]. *)
Theorem max_tile_heuristic_exponent (g : grid) :
  playable g →
  ∃ k : Z,
    1 ≤ k ∧ largest_tile g = 2 ^ k
    ∧ @max_tile_heuristic xreal xreal_ops g = Fin (IZR k).
Proof. apply max_tile_exponent. Qed.

Lemma max_tile_heuristic_exponent_witness :
  let b := [[2; 2; 0; 0]; [0; 4; 0; 0]; [0; 4; 8; 0]; [0; 0; 0; 16]] in
  ∃ k : Z,
    1 ≤ k ∧ largest_tile b = 2 ^ k
    ∧ @max_tile_heuristic xreal xreal_ops b = Fin (IZR k).
Proof. apply max_tile_heuristic_exponent. apply playable_sample. Defined.




